(** * architecture.log: the persistence layer, verified

    A shallow embedding of the two storage layers of the application:

    - [DataService] (the localStorage abstraction): the four record
      collections and the session pointer;
    - the IndexedDB image store of [script.js]: [saveImageBlob],
      [getImageBlob], [deleteAllImages], the one-time migration
      [migrateOldData], and the object-URL cache behind [getImageUrl].

    Conventions of the embedding.

    - localStorage holds, under each key, the text [JSON.stringify v] of a
      value [v]; every read goes through [JSON.parse].  The embedding stores
      [v] itself: on the records below a stringify/parse round trip is the
      identity.  An absent key ([getItem] returning [null]) is [None].
    - [Date], [Math.random], [fetch], [URL.createObjectURL] and the outcome
      of each IndexedDB request belong to the browser.  They are inputs: a
      [Clock] for the DataService, an [Env] for the image store.
    - A rejected promise / thrown exception is the [Throw] result of the
      monad [M]; [try]/[catch] is [try_catch]. *)

From stdpp Require Import base option list gmap strings pretty.

#[local] Set Warnings "-clear-no-such-hyp".

(* ================================================================== *)
(** * JavaScript values that reach the image fields *)

(** [post.images] and [post.image] are inspected with [Array.isArray] and
    [typeof], so they are kept as dynamically typed JSON values. *)
#[local] Unset Elimination Schemes.
Inductive jsval : Type :=
  | JNull
  | JBool (b : bool)
  | JNum (n : Z)
  | JStr (s : string)
  | JArr (items : list jsval)
  | JObj (props : list (string * jsval)).
#[local] Set Elimination Schemes.

(** [s.startsWith(p)] *)
Definition startsWith (s p : string) : bool := String.prefix p s.

(** JavaScript truthiness of a string used as a condition. *)
Definition truthy_string (s : string) : bool :=
  if decide (s = "") then false else true.

(* ================================================================== *)
(** * Records *)

Record User := mkUser {
  user_id : string;
  user_username : string;
  user_bio : string;
  user_createdAt : string
}.

Record Post := mkPost {
  post_id : string;
  post_userId : string;
  post_username : string;
  post_buildingName : string;
  post_category : string;
  post_location : string;
  post_date : string;
  post_note : string;
  post_tags : list string;
  post_emotionColor : string;
  post_images : option jsval;   (* [None]: the property is absent *)
  post_image : option jsval;    (* legacy single image, [None]: absent *)
  post_likes : list jsval;
  post_comments : list jsval;
  post_createdAt : string
}.

Record Comment := mkComment {
  comment_id : string;
  comment_postId : string;
  comment_userId : string;
  comment_username : string;
  comment_content : string;
  comment_createdAt : string
}.

Record Like := mkLike {
  like_postId : string;
  like_userId : string;
  like_createdAt : string
}.

(** What [Date] returns when the DataService asks: [Date.now()] printed in
    decimal (it is only ever concatenated to a prefix) and
    [new Date().toISOString()]. *)
Record Clock := mkClock {
  now_ms : string;
  now_iso : string
}.

(* ================================================================== *)
(** * localStorage *)

Record LocalStorage := mkLocalStorage {
  architecture_log_users : option (list User);
  architecture_log_posts : option (list Post);
  architecture_log_comments : option (list Comment);
  architecture_log_likes : option (list Like);
  current_user : option User
}.

(** A store on which nothing was ever written. *)
Definition empty_storage : LocalStorage :=
  mkLocalStorage None None None None None.

(** [localStorage.setItem(key, JSON.stringify(v))], one per key. *)
Definition set_users (v : list User) (ls : LocalStorage) : LocalStorage :=
  mkLocalStorage (Some v) (architecture_log_posts ls)
    (architecture_log_comments ls) (architecture_log_likes ls)
    (current_user ls).

Definition set_posts (v : list Post) (ls : LocalStorage) : LocalStorage :=
  mkLocalStorage (architecture_log_users ls) (Some v)
    (architecture_log_comments ls) (architecture_log_likes ls)
    (current_user ls).

Definition set_comments (v : list Comment) (ls : LocalStorage) : LocalStorage :=
  mkLocalStorage (architecture_log_users ls) (architecture_log_posts ls)
    (Some v) (architecture_log_likes ls) (current_user ls).

Definition set_likes (v : list Like) (ls : LocalStorage) : LocalStorage :=
  mkLocalStorage (architecture_log_users ls) (architecture_log_posts ls)
    (architecture_log_comments ls) (Some v) (current_user ls).

Definition set_current_user (v : User) (ls : LocalStorage) : LocalStorage :=
  mkLocalStorage (architecture_log_users ls) (architecture_log_posts ls)
    (architecture_log_comments ls) (architecture_log_likes ls) (Some v).

(** [!localStorage.getItem(key)]: the key is absent.  (A present key holds
    the text of an array, which is never the empty string.) *)
Definition missing {A} (item : option A) : bool :=
  match item with None => true | Some _ => false end.

(** [JSON.parse(localStorage.getItem(key) || '[]')] *)
Definition parse_or_empty {A} (item : option (list A)) : list A :=
  default [] item.

(* ================================================================== *)
(** * Array helpers *)

(** [arr.findIndex(pred)], with [None] for the result [-1]. *)
Definition findIndex {A} (P : A → Prop) `{∀ x, Decision (P x)}
    (arr : list A) : option nat :=
  fst <$> list_find P arr.

(** The body shared by [saveUser] and [savePost]:
[[
    const existingIndex = arr.findIndex(x => x.id === rec.id);
    if (existingIndex >= 0) { arr[existingIndex] = rec; } else { arr.push(rec); }
]] *)
Definition upsert {A} (key : A → string) (rec : A) (arr : list A) : list A :=
  match findIndex (λ x, key x = key rec) arr with
  | Some existingIndex => <[existingIndex := rec]> arr
  | None => arr ++ [rec]
  end.

(* ================================================================== *)
(** * DataService *)

Module DataService.

Definition defaultUser (c : Clock) : User :=
  {| user_id := "user_" +:+ now_ms c;
     user_username := "default";
     user_bio := "Architecture enthusiast";
     user_createdAt := now_iso c |}.

Definition init (c : Clock) (ls : LocalStorage) : LocalStorage :=
  let ls :=
    if missing (architecture_log_users ls)
    then set_users [defaultUser c] ls else ls in
  let ls :=
    if missing (architecture_log_posts ls) then set_posts [] ls else ls in
  let ls :=
    if missing (architecture_log_comments ls)
    then set_comments [] ls else ls in
  let ls :=
    if missing (architecture_log_likes ls) then set_likes [] ls else ls in
  ls.

(** [JSON.parse(localStorage.getItem('current_user') || 'null')] *)
Definition getCurrentUser (ls : LocalStorage) : option User :=
  current_user ls.

Definition getUsers (ls : LocalStorage) : list User :=
  parse_or_empty (architecture_log_users ls).

Definition saveUser (user : User) (ls : LocalStorage) : LocalStorage :=
  let users := getUsers ls in
  set_users (upsert user_id user users) ls.

Definition setCurrentUser (user : User) (ls : LocalStorage) : LocalStorage :=
  let ls := set_current_user user ls in
  saveUser user ls.

Definition getPosts (ls : LocalStorage) : list Post :=
  parse_or_empty (architecture_log_posts ls).

Definition savePost (post : Post) (ls : LocalStorage) : LocalStorage :=
  let posts := getPosts ls in
  set_posts (upsert post_id post posts) ls.

(** [getComments(postId)]: the argument is optional ([None] when the call
    passes nothing); [if (postId)] is also false for the empty string. *)
Definition getComments (postId : option string) (ls : LocalStorage)
    : list Comment :=
  let allComments := parse_or_empty (architecture_log_comments ls) in
  match postId with
  | Some p =>
      if truthy_string p
      then filter (λ c, comment_postId c = p) allComments
      else allComments
  | None => allComments
  end.

Definition getLikes (postId : option string) (ls : LocalStorage)
    : list Like :=
  let allLikes := parse_or_empty (architecture_log_likes ls) in
  match postId with
  | Some p =>
      if truthy_string p
      then filter (λ l, like_postId l = p) allLikes
      else allLikes
  | None => allLikes
  end.

Definition deletePost (postId : string) (ls : LocalStorage) : LocalStorage :=
  let posts := getPosts ls in
  let filtered := filter (λ p, post_id p ≠ postId) posts in
  let ls := set_posts filtered ls in
  let comments :=
    filter (λ c, comment_postId c ≠ postId) (getComments None ls) in
  let ls := set_comments comments ls in
  let likes := filter (λ l, like_postId l ≠ postId) (getLikes None ls) in
  set_likes likes ls.

Definition getUserPosts (userId : string) (ls : LocalStorage) : list Post :=
  filter (λ p, post_userId p = userId) (getPosts ls).

Definition saveComment (comment : Comment) (ls : LocalStorage)
    : LocalStorage :=
  let comments := getComments None ls in
  set_comments (comments ++ [comment]) ls.

(** [new Date().toISOString()] is read from the clock [c]. *)
Definition toggleLike (c : Clock) (postId userId : string)
    (ls : LocalStorage) : LocalStorage :=
  let likes := getLikes None ls in
  let existingIndex :=
    findIndex (λ l, like_postId l = postId ∧ like_userId l = userId) likes in
  let likes :=
    match existingIndex with
    | Some i => delete i likes                       (* splice(i, 1) *)
    | None => likes ++ [mkLike postId userId (now_iso c)]
    end in
  set_likes likes ls.

(** [likes.some(l => l.userId === userId)] on [getLikes(postId)]. *)
Definition isLiked (postId userId : string) (ls : LocalStorage) : bool :=
  let likes := getLikes (Some postId) ls in
  existsb (λ l, bool_decide (like_userId l = userId)) likes.

End DataService.

(* ================================================================== *)
(** * What the spec says an upsert sequence leaves behind *)

(** Each identifier once, in the order of its first occurrence. *)
Fixpoint first_occurrences (ids : list string) : list string :=
  match ids with
  | [] => []
  | i :: rest => i :: filter (λ j, j ≠ i) (first_occurrences rest)
  end.

(** The value most recently upserted under identifier [i]. *)
Definition most_recent {A} (key : A → string) (i : string) (recs : list A)
    : option A :=
  last (filter (λ r, key r = i) recs).

(** One record per distinct identifier, each the most recent one, in
    first-occurrence order. *)
Definition upsert_spec {A} (key : A → string) (recs : list A) : list A :=
  omap (λ i, most_recent key i recs) (first_occurrences (key <$> recs)).

(** The composite key of a Like. *)
Definition like_pair (l : Like) : string * string :=
  (like_postId l, like_userId l).

(** The test of [toggleLike]'s [findIndex] for the pair [(p, u)]. *)
Definition like_matches (p u : string) (l : Like) : Prop :=
  like_postId l = p ∧ like_userId l = u.

(** A call [toggleLike(postId, userId)] and the time it is made at. *)
Definition run_toggle (ls : LocalStorage) (call : Clock * string * string)
    : LocalStorage :=
  let '(c, postId, userId) := call in DataService.toggleLike c postId userId ls.

(** A call of the upsert interface. *)
Inductive UpsertCall :=
  | SaveUser (u : User)
  | SavePost (p : Post).

Definition run_upsert (ls : LocalStorage) (c : UpsertCall) : LocalStorage :=
  match c with
  | SaveUser u => DataService.saveUser u ls
  | SavePost p => DataService.savePost p ls
  end.

Definition users_of (calls : list UpsertCall) : list User :=
  omap (λ c, match c with SaveUser u => Some u | _ => None end) calls.

Definition posts_of (calls : list UpsertCall) : list Post :=
  omap (λ c, match c with SavePost p => Some p | _ => None end) calls.

(* ================================================================== *)
(** * The browser around the image store *)

(** Binary content of an image. *)
Definition Blob := string.

(** Everything [script.js] asks of the browser and cannot control.  IndexedDB
    requests are numbered in the order [openDB] issues them. *)
Record Env := mkEnv {
  db_opens : nat → bool;       (* request n: [indexedDB.open] succeeds *)
  request_ok : nat → bool;     (* request n: the store request succeeds *)
  id_stamp : nat → string;     (* request n: [${Date.now()}_${random}] *)
  fetch_blob : string → option Blob;
                               (* [fetch(dataUri)] then [.blob()] *)
  url_token : nat → string     (* n-th [URL.createObjectURL], after [blob:] *)
}.

(** Values carried by a rejected promise. *)
Inductive Error :=
  | OpenError
  | RequestError
  | NotFoundError
  | FetchError.

Inductive Level := LevelLog | LevelWarn.

(** The messages the code sends to the console. *)
Inductive Message :=
  | MsgOpenFailed
  | MsgImageSaved (imageId : string)
  | MsgSaveFailed
  | MsgErrorSaving
  | MsgNotFound (imageId : string)
  | MsgGetFailed
  | MsgErrorGetting
  | MsgAllCleared
  | MsgClearFailed
  | MsgErrorDeleting
  | MsgMigratedImage (n : nat) (postId : string)
  | MsgMigrateImageFailed (n : nat) (postId : string)
  | MsgMigratedSingle (postId : string)
  | MsgMigrateSingleFailed (postId : string)
  | MsgMigrationComplete (count : nat)
  | MsgMigrationError
  | MsgErrorGettingUrl
  | MsgErrorClearing.

(** A JavaScript [Map] from strings to strings: its entries in insertion
    order, which is the order [forEach] visits them in.  [has] and [get] are
    the lookup [m !! k], [set(k,v)] is [<[k:=v]> m] (the value of a key that
    is present is replaced where it stands, a new key goes to the end),
    [delete(k)] is [delete k m] and [new Map()] and [clear()] give [∅]. *)
Record JsMap := mkJsMap { entries : list (string * string) }.

Fixpoint entries_get (k : string) (es : list (string * string))
    : option string :=
  match es with
  | [] => None
  | (k', v) :: es => if decide (k' = k) then Some v else entries_get k es
  end.

Fixpoint entries_set (k v : string) (es : list (string * string))
    : list (string * string) :=
  match es with
  | [] => [(k, v)]
  | (k', v') :: es =>
      if decide (k' = k) then (k', v) :: es else (k', v') :: entries_set k v es
  end.

#[global] Instance JsMap_lookup : Lookup string string JsMap :=
  λ k m, entries_get k (entries m).

#[global] Instance JsMap_insert : Insert string string JsMap :=
  λ k v m, mkJsMap (entries_set k v (entries m)).

#[global] Instance JsMap_delete : Delete string JsMap :=
  λ k m, mkJsMap (filter (λ e, e.1 ≠ k) (entries m)).

#[global] Instance JsMap_empty : Empty JsMap := mkJsMap [].

(** No key occurs twice: so it is in every [Map], and the operations above
    keep it so. *)
Definition keys_distinct (m : JsMap) : Prop := NoDup ((entries m).*1).

(** The state the image code reads and writes.  The console keeps its newest
    entry first, and so does the list of the revoked object URLs. *)
Record World := mkWorld {
  storage : LocalStorage;
  images : gmap string Blob;            (* object store 'images' *)
  imageUrlCache : JsMap;
  db_requests : nat;                    (* IndexedDB requests issued *)
  urls_created : nat;
  revoked_urls : list string;
  console : list (Level * Message)
}.

Definition with_storage (f : LocalStorage → LocalStorage) (w : World) : World :=
  mkWorld (f (storage w)) (images w) (imageUrlCache w) (db_requests w)
    (urls_created w) (revoked_urls w) (console w).

Definition with_images (f : gmap string Blob → gmap string Blob) (w : World)
    : World :=
  mkWorld (storage w) (f (images w)) (imageUrlCache w) (db_requests w)
    (urls_created w) (revoked_urls w) (console w).

Definition with_cache (f : JsMap → JsMap) (w : World) : World :=
  mkWorld (storage w) (images w) (f (imageUrlCache w)) (db_requests w)
    (urls_created w) (revoked_urls w) (console w).

Definition count_request (w : World) : World :=
  mkWorld (storage w) (images w) (imageUrlCache w) (S (db_requests w))
    (urls_created w) (revoked_urls w) (console w).

Definition count_url (w : World) : World :=
  mkWorld (storage w) (images w) (imageUrlCache w) (db_requests w)
    (S (urls_created w)) (revoked_urls w) (console w).

Definition revoke (urls : list string) (w : World) : World :=
  mkWorld (storage w) (images w) (imageUrlCache w) (db_requests w)
    (urls_created w) (urls ++ revoked_urls w) (console w).

Definition print (entry : Level * Message) (w : World) : World :=
  mkWorld (storage w) (images w) (imageUrlCache w) (db_requests w)
    (urls_created w) (revoked_urls w) (entry :: console w).

(* ================================================================== *)
(** * State and exceptions *)

Inductive Result (A : Type) :=
  | Ok (a : A)
  | Throw (e : Error).
Arguments Ok {A} a.
Arguments Throw {A} e.

Definition M (A : Type) : Type := World → Result A * World.

#[export] Instance M_ret : MRet M := λ A a w, (Ok a, w).

#[export] Instance M_bind : MBind M := λ A B f m w,
  match m w with
  | (Ok a, w') => f a w'
  | (Throw e, w') => (Throw e, w')
  end.

Definition throw {A} (e : Error) : M A := λ w, (Throw e, w).

(** [try { body } catch (error) { handler(error) }] *)
Definition try_catch {A} (body : M A) (handler : Error → M A) : M A := λ w,
  match body w with
  | (Ok a, w') => (Ok a, w')
  | (Throw e, w') => handler e w'
  end.

Definition get_world : M World := λ w, (Ok w, w).

Definition modify (f : World → World) : M unit := λ w, (Ok tt, f w).

Definition console_log (m : Message) : M unit := modify (print (LevelLog, m)).

Definition console_warn (m : Message) : M unit := modify (print (LevelWarn, m)).

(** [m.forEach(callback)] for a callback that leaves the map alone; the
    callback is given the value first and the key second. *)
Definition forEach (m : JsMap) (callback : string → string → World → World)
    : M unit :=
  modify (λ w, foldl (λ w e, callback e.2 e.1 w) w (entries m)).

(** A promise that either resolves or rejects with [e]. *)
Definition settle {A} (e : Error) (outcome : option A) : M A :=
  match outcome with
  | Some a => mret a
  | None => throw e
  end.

(** [post.images = v] and [delete post.image]. *)
Definition set_post_images (v : jsval) (p : Post) : Post :=
  mkPost (post_id p) (post_userId p) (post_username p) (post_buildingName p)
    (post_category p) (post_location p) (post_date p) (post_note p)
    (post_tags p) (post_emotionColor p) (Some v) (post_image p)
    (post_likes p) (post_comments p) (post_createdAt p).

Definition delete_post_image (p : Post) : Post :=
  mkPost (post_id p) (post_userId p) (post_username p) (post_buildingName p)
    (post_category p) (post_location p) (post_date p) (post_note p)
    (post_tags p) (post_emotionColor p) (post_images p) None
    (post_likes p) (post_comments p) (post_createdAt p).

(** [typeof v === 'string' && v.startsWith('data:image')] *)
Definition is_inline (v : jsval) : bool :=
  match v with
  | JStr s => startsWith s "data:image"
  | _ => false
  end.

(* ================================================================== *)
(** * IndexedDB utilities, migration and the URL cache *)

Section ImageStore.

Context (E : Env).

(** Resolves with the database, here the number of the request. *)
Definition openDB : M nat :=
  w ← get_world;
  let n := db_requests w in
  _ ← modify count_request;
  if db_opens E n then mret n
  else _ ← console_warn MsgOpenFailed; throw OpenError.

(** The promise returned from inside the [try] is not awaited there, so a
    failing [put] rejects without passing through the [catch]. *)
Definition saveImageBlob (file : Blob) : M string :=
  db ← try_catch openDB
         (λ error, _ ← console_warn MsgErrorSaving; throw error);
  let imageId := "img_" +:+ id_stamp E db in
  if request_ok E db then
    _ ← modify (with_images (insert imageId file));
    _ ← console_log (MsgImageSaved imageId);
    mret imageId
  else
    _ ← console_warn MsgSaveFailed; throw RequestError.

Definition getImageBlob (imageId : string) : M Blob :=
  db ← try_catch openDB
         (λ error, _ ← console_warn MsgErrorGetting; throw error);
  if request_ok E db then
    w ← get_world;
    match images w !! imageId with
    | Some result => mret result
    | None => _ ← console_warn (MsgNotFound imageId); throw NotFoundError
    end
  else
    _ ← console_warn MsgGetFailed; throw RequestError.

Definition deleteAllImages : M unit :=
  db ← try_catch openDB
         (λ error, _ ← console_warn MsgErrorDeleting; throw error);
  if request_ok E db then
    _ ← modify (with_images (λ _, ∅));
    console_log MsgAllCleared
  else
    _ ← console_warn MsgClearFailed; throw RequestError.

(** [fetch(dataUri)], [response.blob()], [saveImageBlob(blob)]. *)
Definition convert (dataUri : string) : M string :=
  blob ← settle FetchError (fetch_blob E dataUri);
  saveImageBlob blob.

(** One turn of the inner loop: the entry pushed on [newImageIds] and the
    new [migrationCount]. *)
Definition migrateImage (postId : string) (i : nat) (imageData : jsval)
    (migrationCount : nat) : M (jsval * nat) :=
  match imageData with
  | JStr s =>
      if startsWith s "data:image" then
        try_catch
          (imageId ← convert s;
           _ ← console_log (MsgMigratedImage (i + 1) postId);
           mret (JStr imageId, S migrationCount))
          (λ error,
           _ ← console_warn (MsgMigrateImageFailed (i + 1) postId);
           mret (imageData, migrationCount))
      else if startsWith s "img_" then mret (imageData, migrationCount)
      else mret (imageData, migrationCount)
  | _ => mret (imageData, migrationCount)
  end.

(** [for (let i = ...; i < post.images.length; i++)], from index [i] on. *)
Fixpoint migrateImages (postId : string) (i : nat) (entries : list jsval)
    (migrationCount : nat) : M (list jsval * nat) :=
  match entries with
  | [] => mret ([], migrationCount)
  | imageData :: rest =>
      '(entry, migrationCount) ←
        migrateImage postId i imageData migrationCount;
      '(newImageIds, migrationCount) ←
        migrateImages postId (S i) rest migrationCount;
      mret (entry :: newImageIds, migrationCount)
  end.

(** The body of [for (const post of posts)]. *)
Definition migratePost (post : Post) (migrationCount : nat)
    : M (Post * nat) :=
  match post_images post with
  | Some (JArr entries) =>
      '(newImageIds, migrationCount) ←
        migrateImages (post_id post) 0 entries migrationCount;
      mret (set_post_images (JArr newImageIds) post, migrationCount)
  | _ =>
      match post_image post with
      | Some (JStr s) =>
          if truthy_string s && startsWith s "data:image" then
            try_catch
              (imageId ← convert s;
               let post :=
                 delete_post_image
                   (set_post_images (JArr [JStr imageId]) post) in
               _ ← console_log (MsgMigratedSingle (post_id post));
               mret (post, S migrationCount))
              (λ error,
               _ ← console_warn (MsgMigrateSingleFailed (post_id post));
               mret (post, migrationCount))
          else mret (post, migrationCount)
      | _ => mret (post, migrationCount)
      end
  end.

Fixpoint migratePosts (posts : list Post) (migrationCount : nat)
    : M (list Post * nat) :=
  match posts with
  | [] => mret ([], migrationCount)
  | post :: rest =>
      '(post, migrationCount) ← migratePost post migrationCount;
      '(rest, migrationCount) ← migratePosts rest migrationCount;
      mret (post :: rest, migrationCount)
  end.

Definition migrateOldData : M unit :=
  try_catch
    (w ← get_world;
     let posts := DataService.getPosts (storage w) in
     '(posts, migrationCount) ← migratePosts posts 0;
     if bool_decide (0 < migrationCount) then
       _ ← modify (with_storage (set_posts posts));
       console_log (MsgMigrationComplete migrationCount)
     else mret tt)
    (λ error, console_warn MsgMigrationError).

Definition getImageUrl (imageId : string) : M string :=
  w ← get_world;
  match imageUrlCache w !! imageId with
  | Some url => mret url
  | None =>
      try_catch
        (if startsWith imageId "data:image" then mret imageId
         else
           blob ← getImageBlob imageId;
           w ← get_world;
           let url := "blob:" +:+ url_token E (urls_created w) in
           _ ← modify count_url;
           _ ← modify (with_cache (insert imageId url));
           mret url)
        (λ error, _ ← console_warn MsgErrorGettingUrl; mret "")
  end.

Definition revokeImageUrl (imageId : string) : M unit :=
  w ← get_world;
  match imageUrlCache w !! imageId with
  | Some url =>
      _ ← modify (revoke [url]);
      modify (with_cache (delete imageId))
  | None => mret tt
  end.

(** [confirmed] is the answer to the [confirm] dialog; the [alert]s are
    left to the UI. *)
Definition handleClearImages (confirmed : bool) : M unit :=
  if negb confirmed then mret tt
  else
    try_catch
      (_ ← deleteAllImages;
       w ← get_world;
       _ ← forEach (imageUrlCache w) (λ url imageId, revoke [url]);
       modify (with_cache (λ _, ∅)))
      (λ error, console_warn MsgErrorClearing).

End ImageStore.

(* ================================================================== *)
(** * Vocabulary of the statements about the image store *)

Definition is_warning (entry : Level * Message) : bool :=
  match fst entry with LevelWarn => true | LevelLog => false end.

(** How many [console.warn] calls were made so far. *)
Definition warnings (w : World) : nat :=
  length (filter (λ entry, is_warning entry = true) (console w)).

(** The post still offers inline data to one of the two branches of the
    migration loop. *)
Definition needs_migration (p : Post) : bool :=
  match post_images p with
  | Some (JArr entries) => existsb is_inline entries
  | _ =>
      match post_image p with
      | Some (JStr s) => truthy_string s && startsWith s "data:image"
      | _ => false
      end
  end.

(** What running image code may change, and what it may not: localStorage
    and the URL cache are kept, stored blobs are never removed, warnings and
    request numbers only grow. *)
Definition grows (w w' : World) : Prop :=
  storage w' = storage w ∧
  imageUrlCache w' = imageUrlCache w ∧
  (∀ k, is_Some (images w !! k) → is_Some (images w' !! k)) ∧
  warnings w ≤ warnings w' ∧
  db_requests w ≤ db_requests w'.

(** The image code writes the blob store only under the identifiers it
    generates, one for each request it issues: an entry that is not under
    the identifier of a request made between [w] and [w'] is in [w'] what
    it was in [w]. *)
Definition writes_generated (E : Env) (w w' : World) : Prop :=
  db_requests w ≤ db_requests w' ∧
  ∀ k, (∀ n, db_requests w ≤ n < db_requests w' →
             k ≠ "img_" +:+ id_stamp E n) →
       images w' !! k = images w !! k.

(** What can happen between page load and a call of [getImageUrl]. *)
Inductive Action :=
  | ActSaveImage (file : Blob)                (* upload: [saveImageBlob] *)
  | ActGetImageUrl (imageId : string)
  | ActRevokeImageUrl (imageId : string)
  | ActClearImages (confirmed : bool)         (* [handleClearImages] *)
  | ActMigrate                                (* [migrateOldData] *)
  | ActData (f : LocalStorage → LocalStorage). (* any DataService call *)

Definition perform (E : Env) (w : World) (a : Action) : World :=
  match a with
  | ActSaveImage file => snd (saveImageBlob E file w)
  | ActGetImageUrl imageId => snd (getImageUrl E imageId w)
  | ActRevokeImageUrl imageId => snd (revokeImageUrl imageId w)
  | ActClearImages confirmed => snd (handleClearImages E confirmed w)
  | ActMigrate => snd (migrateOldData E w)
  | ActData f => with_storage f w
  end.

(** [const imageUrlCache = new Map()] runs when the script is loaded; every
    later state of the page comes from such a state through the actions. *)
Definition reachable (E : Env) (w : World) : Prop :=
  ∃ w0 actions, imageUrlCache w0 = ∅ ∧ w = foldl (perform E) w0 actions.

(** The cache only knows identifiers that are not inline data and whose blob
    is stored, and maps them to object URLs. *)
Definition cache_sound (w : World) : Prop :=
  ∀ imageId url, imageUrlCache w !! imageId = Some url →
    startsWith imageId "data:image" = false ∧
    is_Some (images w !! imageId) ∧
    ∃ token, url = "blob:" +:+ token.

(* ================================================================== *)
(** * Sample data *)

Definition noon : Clock := mkClock "1700000000000" "2023-11-14T22:13:20.000Z".

Definition later : Clock := mkClock "1700000060000" "2023-11-14T22:14:20.000Z".

Definition like_1A : Like := mkLike "post_1" "user_A" (now_iso noon).

Definition like_2B : Like := mkLike "post_2" "user_B" (now_iso noon).

Definition alice : User := mkUser "user_1" "alice" "" (now_iso noon).

Definition alice_with_bio : User :=
  mkUser "user_1" "alice" "Brick and light" (now_iso later).

Definition bob : User := mkUser "user_2" "bob" "" (now_iso noon).

(** A browser in which every IndexedDB request succeeds, and one in which
    the second request (number 1) fails.  Data URIs decode as [abc_png]
    says; anything else makes [fetch] reject. *)
Definition abc_png : string := "data:image/png;base64,QUJD".

Definition decode (dataUri : string) : option Blob :=
  if decide (dataUri = abc_png) then Some "ABC" else None.

Definition stamp (n : nat) : string := "1700000000000_r4nd0m" +:+ pretty n.

Definition reliable : Env :=
  mkEnv (λ _, true) (λ _, true) stamp decode (λ n, "site/" +:+ pretty n).

Definition flaky : Env :=
  mkEnv (λ _, true) (λ n, negb (n =? 1)) stamp decode
    (λ n, "site/" +:+ pretty n).

Definition offline : Env :=
  mkEnv (λ _, false) (λ _, true) stamp decode (λ n, "site/" +:+ pretty n).

(** A post of the current format, with the given image fields. *)
Definition sample_post (id : string) (images image : option jsval) : Post :=
  mkPost id "user_1" "alice" "Villa Savoye" "Residential" "Poissy"
    "2023-11-14" "" ["light"] "#F5E6D3" images image [] [] (now_iso noon).

Definition gallery_post : Post :=
  sample_post "post_1"
    (Some (JArr [JStr abc_png; JStr "img_x"; JStr abc_png; JNull])) None.

Definition legacy_post : Post :=
  sample_post "post_2" None (Some (JStr abc_png)).


(** The page just loaded, with the given posts in localStorage and an empty
    image store. *)
Definition fresh_page (posts : list Post) : World :=
  mkWorld (set_posts posts empty_storage) ∅ ∅ 0 0 [] [].

(* ================================================================== *)
(** * Lookups and the login handler *)

(** [arr.find(pred)], with [None] for [undefined]. *)
Definition find {A} (P : A → Prop) `{∀ x, Decision (P x)} (arr : list A)
    : option A :=
  snd <$> list_find P arr.

(** [DataService.getPosts().find(p => p.id === postId)], the lookup that
    opens [viewPostDetails]. *)
Definition findPost (postId : string) (ls : LocalStorage) : option Post :=
  find (λ p, post_id p = postId) (DataService.getPosts ls).

(** [user.bio = bio] *)
Definition set_user_bio (bio : string) (u : User) : User :=
  mkUser (user_id u) (user_username u) bio (user_createdAt u).

(** What [handleLogin] reads and writes: localStorage and the global
    [currentUser].  (The rendering it ends with reads localStorage and
    resolves image URLs; it writes neither of the two.) *)
Record Session := mkSession {
  local : LocalStorage;
  currentUser : option User
}.

Section LoginHandler.

(** [String.prototype.trim] *)
Context (trim : string → string).

(** [usernameInput] and [bioInput] are the values of the two form fields. *)
Definition handleLogin (c : Clock) (usernameInput bioInput : string)
    (s : Session) : Session :=
  let username := trim usernameInput in
  let bio := trim bioInput in
  if negb (truthy_string username) then s
  else
    let users := DataService.getUsers (local s) in
    let '(user, ls) :=
      match find (λ u, user_username u = username) users with
      | None =>
          let user :=
            {| user_id := "user_" +:+ now_ms c;
               user_username := username;
               user_bio := if truthy_string bio then bio else "";
               user_createdAt := now_iso c |} in
          (user, DataService.saveUser user (local s))
      | Some user =>
          if truthy_string bio then
            let user := set_user_bio bio user in
            (user, DataService.saveUser user (local s))
          else (user, local s)
      end in
    mkSession (DataService.setCurrentUser user ls) (Some user).

End LoginHandler.

(* ================================================================== *)
(** * Vocabulary of the further statements about the image store *)

(** How the migration may rewrite an entry of an image array: it keeps it,
    or it replaces inline data by a generated identifier. *)
Definition entry_rewritten (v v' : jsval) : Prop :=
  v' = v ∨ (is_inline v = true ∧ ∃ stamp, v' = JStr ("img_" +:+ stamp)).

(** How the migration may rewrite a post: entry by entry when it has an
    image array; otherwise it keeps the post, or it turns an inline legacy
    field into a one-element array. *)
Definition post_rewritten (p p' : Post) : Prop :=
  match post_images p with
  | Some (JArr entries) =>
      ∃ entries', p' = set_post_images (JArr entries') p ∧
                  Forall2 entry_rewritten entries entries'
  | _ =>
      p' = p ∨
      ∃ s stamp, post_image p = Some (JStr s) ∧
                 startsWith s "data:image" = true ∧
                 p' = delete_post_image
                        (set_post_images (JArr [JStr ("img_" +:+ stamp)]) p)
  end.

(** [URL.createObjectURL] number [k]. *)
Definition object_url (E : Env) (k : nat) : string :=
  "blob:" +:+ url_token E k.

(** The script has just been loaded: [imageUrlCache] is a new [Map] and no
    object URL of this page was revoked yet. *)
Definition page_loaded (w : World) : Prop :=
  imageUrlCache w = ∅ ∧ revoked_urls w = [].

(** The code leaves the object URLs alone. *)
Definition urls_kept (w w' : World) : Prop :=
  imageUrlCache w' = imageUrlCache w ∧
  urls_created w' = urls_created w ∧
  revoked_urls w' = revoked_urls w.

(** Cached and revoked URLs were all created by this page; no cached URL is
    revoked; no URL is cached under two identifiers, and no identifier has
    two entries. *)
Definition urls_safe (E : Env) (w : World) : Prop :=
  (∀ imageId url, imageUrlCache w !! imageId = Some url →
     ∃ k, k < urls_created w ∧ url = object_url E k) ∧
  (∀ url, url ∈ revoked_urls w →
     ∃ k, k < urls_created w ∧ url = object_url E k) ∧
  (∀ imageId url, imageUrlCache w !! imageId = Some url →
     url ∉ revoked_urls w) ∧
  (∀ id1 id2 url, imageUrlCache w !! id1 = Some url →
     imageUrlCache w !! id2 = Some url → id1 = id2) ∧
  keys_distinct (imageUrlCache w).

(* ================================================================== *)
(** * The upload handler and the start of the page *)

(** The values of the fields of the upload form. *)
Record UploadForm := mkUploadForm {
  buildingNameInput : string;
  categoryInput : string;
  locationInput : string;
  dateInput : string;
  noteInput : string;
  tagsInput : string;
  emotionColorInput : string
}.

(** What the user sees of [handleUploadForm] and what it leaves in the
    global [selectedFiles]: the text of the [alert], the files still
    selected, and the lines the handler itself sends to [console.warn]. *)
Record UploadResult := mkUploadResult {
  alert_shown : string;
  files_after : list Blob;
  warned : list string
}.

(** The identifier under which IndexedDB request [k], when it is a save,
    stores its file; [None] when the request fails. *)
Definition saved_id (E : Env) (k : nat) : option string :=
  if db_opens E k && request_ok E k
  then Some ("img_" +:+ id_stamp E k) else None.

Section UploadHandler.

Context (E : Env).

(** [String.prototype.trim] and [s.split(',')] *)
Context (trim : string → string) (split_commas : string → list string).

(** The loop [for (const file of selectedFiles)]: the identifiers pushed on
    [imageIds] and the warnings printed for the files that could not be
    saved. *)
Fixpoint saveSelectedFiles (files : list Blob)
    : M (list string * list string) :=
  match files with
  | [] => mret ([], [])
  | file :: rest =>
      saved ← try_catch
                (imageId ← saveImageBlob E file; mret (Some imageId))
                (λ error, mret None);
      '(imageIds, warnings) ← saveSelectedFiles rest;
      mret match saved with
           | Some imageId => (imageId :: imageIds, warnings)
           | None => (imageIds, "Failed to save image:" :: warnings)
           end
  end.

(** [rand] is [Math.random().toString(36).substr(2, 9)].  The handler ends
    with the reset of the form and the rendering of the three tabs, which
    read localStorage and resolve image URLs; they are not part of this
    definition. *)
Definition handleUploadForm (c : Clock) (rand : string)
    (currentUser : option User) (form : UploadForm)
    (selectedFiles : list Blob) : M UploadResult :=
  match currentUser with
  | None => mret (mkUploadResult "Please log in first" selectedFiles [])
  | Some currentUser =>
      try_catch
        (let buildingName := trim (buildingNameInput form) in
         let category := categoryInput form in
         let location := trim (locationInput form) in
         let date := dateInput form in
         let note := trim (noteInput form) in
         let tagsInput := trim (tagsInput form) in
         let emotionColor := emotionColorInput form in
         if negb (truthy_string buildingName) || negb (truthy_string date)
         then
           mret (mkUploadResult "Please fill in required fields"
                   selectedFiles [])
         else
           let tags :=
             if truthy_string tagsInput
             then filter (λ t, truthy_string t = true)
                    (trim <$> split_commas tagsInput)
             else [] in
           '(imageIds, warnings) ← saveSelectedFiles selectedFiles;
           let post :=
             {| post_id := "post_" +:+ now_ms c +:+ "_" +:+ rand;
                post_userId := user_id currentUser;
                post_username := user_username currentUser;
                post_buildingName := buildingName;
                post_category := category;
                post_location := location;
                post_date := date;
                post_note := note;
                post_tags := tags;
                post_emotionColor := emotionColor;
                post_images := Some (JArr (JStr <$> imageIds));
                post_image := None;
                post_likes := [];
                post_comments := [];
                post_createdAt := now_iso c |} in
           _ ← modify (with_storage (DataService.savePost post));
           mret (mkUploadResult "Post created successfully!" [] warnings))
        (λ error,
         mret (mkUploadResult "Failed to create post. Please try again."
                 selectedFiles ["Error creating post:"]))
  end.

End UploadHandler.

(** Which of the two screens [init] shows. *)
Inductive Screen := AppScreen | LoginModal.

(** The start of the page: the migration, then [currentUser] is read from
    the session pointer and decides between the application and the login
    dialog.  (What follows is the wiring of the event listeners and the
    rendering.) *)
Definition init (E : Env) : M (option User * Screen) :=
  _ ← migrateOldData E;
  w ← get_world;
  let currentUser := DataService.getCurrentUser (storage w) in
  mret (currentUser,
        match currentUser with Some _ => AppScreen | None => LoginModal end).

(* ================================================================== *)
(** * Upsert: replace the first match, else append *)

Section Upsert.

Context {A : Type} (key : A → string).

Lemma first_occurrences_elem (i : string) (ids : list string) :
  i ∈ first_occurrences ids ↔ i ∈ ids.
Proof.
  induction ids as [|j ids IH]; simpl; [done|].
  rewrite !elem_of_cons, list_elem_of_filter, IH.
  destruct (decide (i = j)); naive_solver.
Qed.

Lemma first_occurrences_NoDup (ids : list string) :
  NoDup (first_occurrences ids).
Proof.
  induction ids as [|j ids IH]; simpl; [constructor|].
  constructor; [|by apply NoDup_filter].
  rewrite list_elem_of_filter. naive_solver.
Qed.

Lemma first_occurrences_snoc (ids : list string) (i : string) :
  first_occurrences (ids ++ [i]) =
  if decide (i ∈ ids) then first_occurrences ids
  else first_occurrences ids ++ [i].
Proof.
  induction ids as [|j ids IH]; simpl.
  - done.
  - rewrite IH. destruct (decide (i ∈ ids)) as [Hin|Hin].
    + by rewrite decide_True by (by right).
    + rewrite filter_app. destruct (decide (i = j)) as [->|Hne].
      * rewrite decide_True by (by left).
        rewrite filter_cons_False by naive_solver.
        by rewrite filter_nil, app_nil_r.
      * rewrite decide_False by (rewrite elem_of_cons; naive_solver).
        by rewrite filter_cons_True by done.
Qed.

Lemma most_recent_snoc (i : string) (recs : list A) (r : A) :
  most_recent key i (recs ++ [r]) =
  if decide (key r = i) then Some r else most_recent key i recs.
Proof.
  unfold most_recent. rewrite filter_app.
  destruct (decide (key r = i)) as [Hk|Hk].
  - rewrite filter_cons_True by done. by rewrite filter_nil, last_snoc.
  - rewrite filter_cons_False by done. by rewrite filter_nil, app_nil_r.
Qed.

Lemma findIndex_Some (P : A → Prop) `{∀ x, Decision (P x)}
    (arr : list A) (i : nat) :
  findIndex P arr = Some i →
  ∃ x, arr !! i = Some x ∧ P x ∧ ∀ j y, arr !! j = Some y → j < i → ¬ P y.
Proof.
  unfold findIndex. destruct (list_find P arr) as [[j x]|] eqn:Hf; [|done].
  intros [= <-]. exists x. by apply list_find_Some in Hf.
Qed.

Lemma findIndex_None (P : A → Prop) `{∀ x, Decision (P x)} (arr : list A) :
  findIndex P arr = None → Forall (λ x, ¬ P x) arr.
Proof.
  unfold findIndex. destruct (list_find P arr) eqn:Hf; [done|].
  intros _. by apply list_find_None in Hf.
Qed.

(** The state reached by upserting [recs] one after the other. *)
Lemma upsert_fold_inv (recs : list A) :
  let arr := foldl (λ acc r, upsert key r acc) [] recs in
  key <$> arr = first_occurrences (key <$> recs) ∧
  ∀ r, r ∈ arr → most_recent key (key r) recs = Some r.
Proof.
  induction recs as [|r recs IH] using rev_ind; simpl.
  { split; [done|]. intros r Hr. by apply elem_of_nil in Hr. }
  rewrite foldl_snoc, fmap_app. simpl. rewrite first_occurrences_snoc.
  set (arr := foldl (λ acc r, upsert key r acc) [] recs) in *.
  simpl in IH. destruct IH as [Hkeys Hrecent].
  assert (Hnd : NoDup (key <$> arr))
    by (rewrite Hkeys; apply first_occurrences_NoDup).
  unfold upsert.
  destruct (findIndex (λ x, key x = key r) arr) as [i|] eqn:Hfind.
  - apply findIndex_Some in Hfind as (x & Hx & Hkx & _).
    assert (Hin : key r ∈ key <$> recs).
    { apply first_occurrences_elem. rewrite <- Hkeys, <- Hkx.
      apply list_elem_of_fmap_2. by eapply list_elem_of_lookup_2. }
    rewrite decide_True by done. split.
    + rewrite list_fmap_insert, <- Hkx, list_insert_id; [done|].
      by rewrite list_lookup_fmap, Hx.
    + intros y Hy. rewrite most_recent_snoc.
      apply list_elem_of_lookup in Hy as [j Hj].
      destruct (decide (i = j)) as [<-|Hij].
      * rewrite list_lookup_insert_eq in Hj
          by (by eapply lookup_lt_Some).
        injection Hj as <-. by rewrite decide_True.
      * rewrite list_lookup_insert_ne in Hj by done.
        rewrite decide_False; [apply Hrecent; by eapply list_elem_of_lookup_2|].
        intros Heq. apply Hij.
        eapply (NoDup_lookup (key <$> arr)); [done| |].
        -- by rewrite list_lookup_fmap, Hx.
        -- rewrite list_lookup_fmap, Hj. simpl. congruence.
  - apply findIndex_None in Hfind.
    assert (Hnin : key r ∉ key <$> recs).
    { rewrite <- first_occurrences_elem, <- Hkeys.
      intros (y & Hy1 & Hy2)%list_elem_of_fmap.
      rewrite Forall_forall in Hfind. by apply (Hfind y). }
    rewrite decide_False by done. split.
    + by rewrite fmap_app, Hkeys.
    + intros y Hy. rewrite most_recent_snoc.
      apply elem_of_app in Hy as [Hy|Hy%list_elem_of_singleton].
      * rewrite decide_False; [by apply Hrecent|].
        intros Heq. rewrite Forall_forall in Hfind. by apply (Hfind y).
      * subst y. by rewrite decide_True.
Qed.

Lemma omap_most_recent (recs arr : list A) :
  (∀ r, r ∈ arr → most_recent key (key r) recs = Some r) →
  omap (λ i, most_recent key i recs) (key <$> arr) = arr.
Proof.
  induction arr as [|x arr IH]; intros Hall; [done|].
  simpl. rewrite (Hall x) by (by left). simpl.
  f_equal. apply IH. intros r Hr. apply Hall. by right.
Qed.

(** The code's fold and the spec's description agree. *)
Lemma upsert_fold_spec (recs : list A) :
  foldl (λ acc r, upsert key r acc) [] recs = upsert_spec key recs.
Proof.
  destruct (upsert_fold_inv recs) as [Hkeys Hrecent].
  unfold upsert_spec. rewrite <- Hkeys. symmetry.
  by apply omap_most_recent.
Qed.

End Upsert.

(* ================================================================== *)
(** * DataService: users, posts and the session pointer *)

Example saveUser_replaces_in_place :
  DataService.getUsers
    (DataService.saveUser alice_with_bio
       (DataService.saveUser bob
          (DataService.saveUser alice empty_storage)))
  = [alice_with_bio; bob].
Proof. reflexivity. Qed.

Example deletePost_sample :
  let ls :=
    set_likes [like_1A; like_2B]
      (set_posts [gallery_post; legacy_post] empty_storage) in
  DataService.getPosts (DataService.deletePost "post_1" ls) = [legacy_post] ∧
  DataService.getLikes None (DataService.deletePost "post_1" ls) = [like_2B].
Proof. split; reflexivity. Qed.

Lemma upsert_elem {A} (key : A → string) (rec : A) (arr : list A) :
  rec ∈ upsert key rec arr.
Proof.
  unfold upsert.
  destruct (findIndex (λ x, key x = key rec) arr) as [i|] eqn:Hfind.
  - apply findIndex_Some in Hfind as (x & Hx & _).
    apply list_elem_of_lookup. exists i.
    apply list_lookup_insert_eq. by eapply lookup_lt_Some.
  - apply elem_of_app. right. by apply list_elem_of_singleton.
Qed.

Lemma getUsers_run_upsert (calls : list UpsertCall) (ls : LocalStorage) :
  DataService.getUsers (foldl run_upsert ls calls) =
  foldl (λ acc u, upsert user_id u acc) (DataService.getUsers ls)
    (users_of calls).
Proof.
  revert ls. induction calls as [|[u|p] calls IH]; intros ls; simpl; [done| |].
  - by rewrite IH.
  - by rewrite IH.
Qed.

Lemma getPosts_run_upsert (calls : list UpsertCall) (ls : LocalStorage) :
  DataService.getPosts (foldl run_upsert ls calls) =
  foldl (λ acc p, upsert post_id p acc) (DataService.getPosts ls)
    (posts_of calls).
Proof.
  revert ls. induction calls as [|[u|p] calls IH]; intros ls; simpl; [done| |].
  - by rewrite IH.
  - by rewrite IH.
Qed.

(** C3.  Starting from empty user and post collections, after any sequence
    of [saveUser]/[savePost] calls [getUsers] and [getPosts] return exactly
    what the spec describes: one record per distinct identifier (the
    identifiers are those of the calls, without repetition, in the order of
    their first occurrence) and each record is the value most recently
    upserted under its identifier. *)
Theorem upsert_sequence_readAll (calls : list UpsertCall) (ls : LocalStorage) :
  DataService.getUsers ls = [] →
  DataService.getPosts ls = [] →
  let ls' := foldl run_upsert ls calls in
  let users := DataService.getUsers ls' in
  let posts := DataService.getPosts ls' in
  users = upsert_spec user_id (users_of calls) ∧
  posts = upsert_spec post_id (posts_of calls) ∧
  NoDup (user_id <$> users) ∧
  NoDup (post_id <$> posts) ∧
  user_id <$> users = first_occurrences (user_id <$> users_of calls) ∧
  post_id <$> posts = first_occurrences (post_id <$> posts_of calls) ∧
  (∀ i, i ∈ user_id <$> users ↔ i ∈ user_id <$> users_of calls) ∧
  (∀ i, i ∈ post_id <$> posts ↔ i ∈ post_id <$> posts_of calls) ∧
  (∀ u, u ∈ users →
     most_recent user_id (user_id u) (users_of calls) = Some u) ∧
  (∀ p, p ∈ posts →
     most_recent post_id (post_id p) (posts_of calls) = Some p).
Proof.
  intros Hu Hp ls' users posts. subst users posts ls'.
  rewrite getUsers_run_upsert, getPosts_run_upsert, Hu, Hp.
  destruct (upsert_fold_inv user_id (users_of calls)) as [Hku Hru].
  destruct (upsert_fold_inv post_id (posts_of calls)) as [Hkp Hrp].
  simpl in *. rewrite !upsert_fold_spec.
  rewrite (upsert_fold_spec user_id) in Hku, Hru.
  rewrite (upsert_fold_spec post_id) in Hkp, Hrp.
  repeat split; try done.
  - rewrite Hku. apply first_occurrences_NoDup.
  - rewrite Hkp. apply first_occurrences_NoDup.
  - rewrite Hku. apply first_occurrences_elem.
  - rewrite Hku. apply first_occurrences_elem.
  - rewrite Hkp. apply first_occurrences_elem.
  - rewrite Hkp. apply first_occurrences_elem.
Qed.

Lemma upsert_sequence_readAll_witness :
  DataService.getUsers
    (foldl run_upsert empty_storage
       [SaveUser alice; SaveUser bob; SavePost legacy_post;
        SaveUser alice_with_bio]) = [alice_with_bio; bob] ∧
  DataService.getPosts
    (foldl run_upsert empty_storage
       [SaveUser alice; SaveUser bob; SavePost legacy_post;
        SaveUser alice_with_bio]) = [legacy_post].
Proof.
  destruct (upsert_sequence_readAll
              [SaveUser alice; SaveUser bob; SavePost legacy_post;
               SaveUser alice_with_bio] empty_storage eq_refl eq_refl)
    as (Husers & Hposts & _).
  split; [rewrite Husers|rewrite Hposts]; reflexivity.
Defined.

(** C4.  [deletePost(id)] keeps, in each of the three collections and in
    their original order, exactly the records that do not refer to [id]:
    the posts whose identifier differs and the comments and likes whose
    [postId] differs.  Users and the session pointer are not touched. *)
Theorem deletePost_cascade (postId : string) (ls : LocalStorage) :
  let ls' := DataService.deletePost postId ls in
  DataService.getPosts ls' =
    filter (λ p, post_id p ≠ postId) (DataService.getPosts ls) ∧
  DataService.getComments None ls' =
    filter (λ c, comment_postId c ≠ postId) (DataService.getComments None ls) ∧
  DataService.getLikes None ls' =
    filter (λ l, like_postId l ≠ postId) (DataService.getLikes None ls) ∧
  (∀ p, p ∈ DataService.getPosts ls' ↔
        p ∈ DataService.getPosts ls ∧ post_id p ≠ postId) ∧
  (∀ c, c ∈ DataService.getComments None ls' ↔
        c ∈ DataService.getComments None ls ∧ comment_postId c ≠ postId) ∧
  (∀ l, l ∈ DataService.getLikes None ls' ↔
        l ∈ DataService.getLikes None ls ∧ like_postId l ≠ postId) ∧
  DataService.getPosts ls' `sublist_of` DataService.getPosts ls ∧
  DataService.getComments None ls' `sublist_of`
    DataService.getComments None ls ∧
  DataService.getLikes None ls' `sublist_of` DataService.getLikes None ls ∧
  DataService.getUsers ls' = DataService.getUsers ls ∧
  DataService.getCurrentUser ls' = DataService.getCurrentUser ls.
Proof.
  simpl. unfold DataService.deletePost, DataService.getPosts,
    DataService.getComments, DataService.getLikes, DataService.getUsers,
    DataService.getCurrentUser. simpl.
  repeat match goal with |- _ ∧ _ => split end; try done;
    try (intros x; rewrite list_elem_of_filter; tauto);
    apply sublist_filter.
Qed.

(** C8.  [setCurrentUser(u)] makes [getCurrentUser()] return [u] and
    upserts [u] into the stored user collection, which therefore contains
    [u]; posts, comments and likes are left alone. *)
Theorem setCurrentUser_persists (u : User) (ls : LocalStorage) :
  let ls' := DataService.setCurrentUser u ls in
  DataService.getCurrentUser ls' = Some u ∧
  DataService.getUsers ls' = upsert user_id u (DataService.getUsers ls) ∧
  DataService.getUsers ls' = DataService.getUsers (DataService.saveUser u ls) ∧
  u ∈ DataService.getUsers ls' ∧
  architecture_log_users ls' = Some (DataService.getUsers ls') ∧
  architecture_log_posts ls' = architecture_log_posts ls ∧
  architecture_log_comments ls' = architecture_log_comments ls ∧
  architecture_log_likes ls' = architecture_log_likes ls.
Proof.
  simpl. unfold DataService.setCurrentUser, DataService.saveUser,
    DataService.getUsers, DataService.getCurrentUser. simpl.
  repeat split; try done. apply upsert_elem.
Qed.

(** C10.  On a store none of whose four collection keys was ever written,
    [DataService.init()] leaves a user collection holding exactly one
    record, the auto-created user named 'default', and writes an empty
    sequence under each of the posts, comments and likes keys.  So
    [getUsers] is not empty although the session pointer is still what it
    was (absent when nobody logged in). *)
Theorem init_creates_default_user (c : Clock) (session : option User) :
  let ls := DataService.init c (mkLocalStorage None None None None session) in
  DataService.getUsers ls = [DataService.defaultUser c] ∧
  user_username (DataService.defaultUser c) = "default" ∧
  DataService.getUsers ls ≠ [] ∧
  length (DataService.getUsers ls) = 1 ∧
  architecture_log_users ls = Some [DataService.defaultUser c] ∧
  architecture_log_posts ls = Some [] ∧
  architecture_log_comments ls = Some [] ∧
  architecture_log_likes ls = Some [] ∧
  DataService.getPosts ls = [] ∧
  DataService.getComments None ls = [] ∧
  DataService.getLikes None ls = [] ∧
  DataService.getCurrentUser ls = session.
Proof. simpl. repeat split; done. Qed.

(* ================================================================== *)
(** * DataService: likes *)

(** The scenario of the spec: a toggle on the empty collection creates the
    Like, [isLiked] sees it, a second toggle empties the collection. *)
Example toggleLike_scenario :
  let once := DataService.toggleLike noon "post_1" "user_A" empty_storage in
  DataService.getLikes None once = [like_1A] ∧
  DataService.isLiked "post_1" "user_A" once = true ∧
  DataService.getLikes None
    (DataService.toggleLike later "post_1" "user_A" once) = [].
Proof. repeat split; reflexivity. Qed.

Section Likes.

Context (p u : string).

Lemma matches_pair (l : Like) : like_matches p u l ↔ like_pair l = (p, u).
Proof.
  unfold like_matches, like_pair.
  split; [by intros [-> ->]|by intros [= -> ->]].
Qed.

Lemma getLikes_toggleLike (c : Clock) (ls : LocalStorage) :
  DataService.getLikes None (DataService.toggleLike c p u ls) =
  let likes := DataService.getLikes None ls in
  match findIndex (like_matches p u) likes with
  | Some i => delete i likes
  | None => likes ++ [mkLike p u (now_iso c)]
  end.
Proof. reflexivity. Qed.

(** A hit of [findIndex] splits the array around the first match. *)
Lemma findIndex_split (likes : list Like) (i : nat) :
  findIndex (like_matches p u) likes = Some i →
  ∃ l1 x l2, likes = l1 ++ x :: l2 ∧ length l1 = i ∧ like_matches p u x ∧
             delete i likes = l1 ++ l2.
Proof.
  intros (x & Hx & Hm & _)%findIndex_Some.
  exists (take i likes), x, (drop (S i) likes).
  assert (Hlen : length (take i likes) = i).
  { rewrite length_take. apply lookup_lt_Some in Hx. lia. }
  split; [by rewrite take_drop_middle|].
  split; [done|]. split; [done|]. apply delete_take_drop.
Qed.

Lemma no_match_after_removal (l1 l2 : list Like) (x : Like) :
  like_matches p u x → NoDup (like_pair <$> l1 ++ x :: l2) →
  Forall (λ l, ¬ like_matches p u l) (l1 ++ l2).
Proof.
  intros Hx Hnd. rewrite fmap_app, fmap_cons in Hnd.
  apply NoDup_app in Hnd as (_ & Hdisj & Hnd2).
  apply NoDup_cons in Hnd2 as [Hx2 _].
  apply matches_pair in Hx.
  apply Forall_app. split; apply Forall_forall; intros l Hl Hm;
    apply matches_pair in Hm.
  - apply (Hdisj (p, u)).
    + rewrite <- Hm. by apply list_elem_of_fmap_2.
    + rewrite Hx. by left.
  - apply Hx2. rewrite Hx, <- Hm. by apply list_elem_of_fmap_2.
Qed.

Lemma findIndex_no_match (likes : list Like) :
  Forall (λ l, ¬ like_matches p u l) likes →
  findIndex (like_matches p u) likes = None.
Proof.
  intros Hall. unfold findIndex.
  by rewrite (proj2 (list_find_None (like_matches p u) likes) Hall).
Qed.


(** One toggle keeps the pairs distinct. *)
Lemma toggleLike_NoDup (c : Clock) (ls : LocalStorage) :
  NoDup (like_pair <$> DataService.getLikes None ls) →
  NoDup (like_pair <$>
           DataService.getLikes None (DataService.toggleLike c p u ls)).
Proof.
  intros Hnd. rewrite getLikes_toggleLike. cbv zeta.
  destruct (findIndex (like_matches p u) (DataService.getLikes None ls))
    as [i|] eqn:Hfind.
  - rewrite list_fmap_delete, delete_take_drop.
    rewrite <- (take_drop i (like_pair <$> _)) in Hnd.
    apply NoDup_app in Hnd as (Hnd1 & Hdisj & Hnd2).
    apply NoDup_app. split; [done|]. split.
    + intros x Hx1 Hx2. apply (Hdisj x Hx1).
      rewrite <- (take_drop 1 (drop i _)), drop_drop.
      apply elem_of_app. right. by rewrite Nat.add_1_r.
    + rewrite <- (take_drop 1 (drop i _)), drop_drop in Hnd2.
      apply NoDup_app in Hnd2 as (_ & _ & Hnd2).
      by rewrite Nat.add_1_r in Hnd2.
  - apply findIndex_None in Hfind. rewrite fmap_app.
    apply NoDup_app. split; [done|]. split; [|apply NoDup_singleton].
    intros x (l & -> & Hl)%list_elem_of_fmap Hx.
    apply list_elem_of_singleton in Hx. simpl in Hx.
    rewrite Forall_forall in Hfind. apply (Hfind l Hl).
    by apply matches_pair.
Qed.

(** With a non-empty post identifier, [isLiked] is the existence of a
    matching Like. *)
Lemma isLiked_true (ls : LocalStorage) :
  p ≠ "" →
  DataService.isLiked p u ls = true ↔
  Exists (like_matches p u) (DataService.getLikes None ls).
Proof.
  intros Hp. unfold DataService.isLiked, DataService.getLikes.
  unfold truthy_string. rewrite decide_False by done.
  rewrite existsb_exists, Exists_exists. split.
  - intros (l & Hin & Hu). apply list_elem_of_In, list_elem_of_filter in Hin.
    apply bool_decide_eq_true in Hu. exists l. by destruct Hin.
  - intros (l & Hin & Hp' & Hu). exists l. split.
    + by apply list_elem_of_In, list_elem_of_filter.
    + by apply bool_decide_eq_true.
Qed.


End Likes.

Lemma filter_none {A} (P : A → Prop) `{∀ x, Decision (P x)} (l : list A) :
  Forall (λ x, ¬ P x) l → filter P l = [].
Proof.
  induction 1 as [|x l Hx _ IH]; [done|].
  by rewrite filter_cons_False.
Qed.

Lemma NoDup_fmap_filter_le {A K} `{EqDecision K} (f : A → K) (k : K)
    (l : list A) :
  NoDup (f <$> l) → length (filter (λ x, f x = k) l) ≤ 1.
Proof.
  induction l as [|x l IH]; simpl; [lia|].
  rewrite NoDup_cons. intros [Hx Hnd].
  destruct (decide (f x = k)) as [Hk|Hk].
  - rewrite filter_cons_True by done. simpl.
    assert (Hnil : filter (λ y, f y = k) l = []).
    { apply filter_none, Forall_forall. intros y Hy Hfy.
      apply Hx. rewrite Hk, <- Hfy. by apply list_elem_of_fmap_2. }
    rewrite Hnil. simpl. lia.
  - rewrite filter_cons_False by done. by apply IH.
Qed.

Lemma run_toggle_NoDup (calls : list (Clock * string * string))
    (ls : LocalStorage) :
  NoDup (like_pair <$> DataService.getLikes None ls) →
  NoDup (like_pair <$> DataService.getLikes None (foldl run_toggle ls calls)).
Proof.
  revert ls. induction calls as [|[[c p] u] calls IH]; intros ls Hnd; [done|].
  simpl. apply IH. by apply toggleLike_NoDup.
Qed.

(** C9.  Starting from an empty Like collection, after any sequence of
    [toggleLike] calls the collection holds at most one Like per
    (post identifier, user identifier) pair: the pairs of the stored Likes
    are pairwise distinct, so the Likes matching any given pair number at
    most one. *)
Theorem toggleLike_at_most_one_per_pair
    (calls : list (Clock * string * string)) (ls : LocalStorage) :
  DataService.getLikes None ls = [] →
  let likes := DataService.getLikes None (foldl run_toggle ls calls) in
  NoDup (like_pair <$> likes) ∧
  ∀ p u, length (filter (λ l, like_pair l = (p, u)) likes) ≤ 1.
Proof.
  intros Hempty likes.
  assert (Hnd : NoDup (like_pair <$> likes)).
  { apply run_toggle_NoDup. rewrite Hempty. constructor. }
  split; [done|]. intros p u. by apply NoDup_fmap_filter_le.
Qed.

Lemma toggleLike_at_most_one_per_pair_witness :
  DataService.getLikes None empty_storage = [] ∧
  NoDup (like_pair <$> DataService.getLikes None
           (foldl run_toggle empty_storage
              [(noon, "post_1", "user_A"); (noon, "post_2", "user_B");
               (later, "post_1", "user_A"); (later, "post_1", "user_B")])).
Proof.
  split; [reflexivity|].
  apply (toggleLike_at_most_one_per_pair
           [(noon, "post_1", "user_A"); (noon, "post_2", "user_B");
            (later, "post_1", "user_A"); (later, "post_1", "user_B")]
           empty_storage).
  reflexivity.
Defined.






(* ================================================================== *)
(** * The URL cache as a [Map] *)

Section JsMapFacts.

Implicit Types (m : JsMap) (k v : string).

Lemma JsMap_lookup_empty k : (∅ : JsMap) !! k = None.
Proof. reflexivity. Qed.

Lemma JsMap_lookup_insert_eq m k v : <[k:=v]> m !! k = Some v.
Proof.
  destruct m as [es].
  unfold lookup, insert, JsMap_lookup, JsMap_insert. simpl.
  induction es as [|[k' v'] es IH]; simpl.
  - by rewrite decide_True.
  - destruct (decide (k' = k)) as [->|Hne]; simpl;
      [by rewrite decide_True|by rewrite decide_False].
Qed.

Lemma JsMap_lookup_insert_ne m k k' v : k ≠ k' → <[k:=v]> m !! k' = m !! k'.
Proof.
  intros Hne. destruct m as [es].
  unfold lookup, insert, JsMap_lookup, JsMap_insert. simpl.
  induction es as [|[k0 v0] es IH]; simpl.
  - by rewrite decide_False.
  - destruct (decide (k0 = k)) as [->|Hne0]; simpl.
    + by rewrite !decide_False by done.
    + by rewrite IH.
Qed.

Lemma JsMap_lookup_delete_eq m k : delete k m !! k = None.
Proof.
  destruct m as [es].
  unfold lookup, delete, JsMap_lookup, JsMap_delete. simpl.
  induction es as [|[k' v'] es IH]; [done|].
  destruct (decide (k' = k)) as [->|Hne].
  - by rewrite filter_cons_False by (simpl; intros Hk; by apply Hk).
  - rewrite filter_cons_True by done. simpl. by rewrite decide_False.
Qed.

Lemma JsMap_lookup_delete_ne m k k' : k ≠ k' → delete k m !! k' = m !! k'.
Proof.
  intros Hne. destruct m as [es].
  unfold lookup, delete, JsMap_lookup, JsMap_delete. simpl.
  induction es as [|[k0 v0] es IH]; [done|].
  destruct (decide (k0 = k)) as [->|Hne0].
  - rewrite filter_cons_False by (simpl; intros Hk; by apply Hk).
    simpl. by rewrite decide_False.
  - rewrite filter_cons_True by done. simpl. by rewrite IH.
Qed.

Lemma JsMap_lookup_delete_Some m k k' v :
  delete k m !! k' = Some v ↔ k ≠ k' ∧ m !! k' = Some v.
Proof.
  destruct (decide (k = k')) as [->|Hne].
  - rewrite JsMap_lookup_delete_eq. naive_solver.
  - rewrite JsMap_lookup_delete_ne by done. naive_solver.
Qed.

Lemma JsMap_lookup_entry m k v : m !! k = Some v → (k, v) ∈ entries m.
Proof.
  destruct m as [es]. unfold lookup, JsMap_lookup. simpl.
  induction es as [|[k' v'] es IH]; simpl; [done|].
  destruct (decide (k' = k)) as [->|Hne].
  - intros [= ->]. by left.
  - intros Hk. right. by apply IH.
Qed.

Lemma JsMap_lookup_None m k : m !! k = None ↔ k ∉ (entries m).*1.
Proof.
  destruct m as [es]. unfold lookup, JsMap_lookup. simpl.
  induction es as [|[k' v'] es IH]; simpl.
  - split; [intros _; apply not_elem_of_nil|done].
  - rewrite not_elem_of_cons. destruct (decide (k' = k)) as [->|Hne].
    + split; [done|]. by intros [? _].
    + rewrite IH. naive_solver.
Qed.

Lemma JsMap_entry_lookup m k v :
  keys_distinct m → (k, v) ∈ entries m → m !! k = Some v.
Proof.
  destruct m as [es]. unfold keys_distinct, lookup, JsMap_lookup. simpl.
  induction es as [|[k' v'] es IH]; simpl.
  - intros _ Hin. by apply elem_of_nil in Hin.
  - intros [Hfresh Hrest]%NoDup_cons [[= -> ->]|Hin]%elem_of_cons.
    + by rewrite decide_True.
    + rewrite decide_False; [by apply IH|].
      intros ->. apply Hfresh.
      by apply (list_elem_of_fmap_2 fst _ (k, v)).
Qed.

Lemma JsMap_delete_id m k : m !! k = None → delete k m = m.
Proof.
  intros Hk%JsMap_lookup_None. destruct m as [es].
  unfold delete, JsMap_delete. simpl in *. f_equal.
  induction es as [|[k' v'] es IH]; [done|].
  simpl in Hk. apply not_elem_of_cons in Hk as [Hne Hk].
  rewrite filter_cons_True by (simpl; congruence).
  by rewrite IH.
Qed.

(** [set] on a key that is not present adds the entry at the end. *)
Lemma JsMap_insert_new m k v :
  m !! k = None → entries (<[k:=v]> m) = entries m ++ [(k, v)].
Proof.
  destruct m as [es]. unfold lookup, insert, JsMap_lookup, JsMap_insert.
  simpl. induction es as [|[k' v'] es IH]; simpl; [done|].
  destruct (decide (k' = k)); [done|]. intros Hk. by rewrite IH.
Qed.

Lemma entries_set_keys k v (es : list (string * string)) :
  (k ∈ es.*1 → (entries_set k v es).*1 = es.*1) ∧
  (k ∉ es.*1 → (entries_set k v es).*1 = es.*1 ++ [k]).
Proof.
  induction es as [|[k' v'] es [IHin IHout]].
  - split; [by intros ?%elem_of_nil|done].
  - cbn [entries_set].
    destruct (decide (k' = k)) as [->|Hne]; rewrite !fmap_cons; cbn [fst].
    + split; [done|]. intros Hout. exfalso. apply Hout. by left.
    + split.
      * intros [->|Hin]%elem_of_cons; [done|]. by rewrite IHin.
      * intros [_ Hout]%not_elem_of_cons. by rewrite IHout.
Qed.

Lemma keys_distinct_empty : keys_distinct ∅.
Proof. constructor. Qed.

Lemma keys_distinct_insert m k v : keys_distinct m → keys_distinct (<[k:=v]> m).
Proof.
  destruct m as [es]. unfold keys_distinct, insert, JsMap_insert. simpl.
  intros Hes. destruct (entries_set_keys k v es) as [Hin Hout].
  destruct (decide (k ∈ es.*1)) as [Hk|Hk]; [by rewrite Hin|].
  rewrite Hout by done.
  apply NoDup_app. split; [done|]. split; [|apply NoDup_singleton].
  by intros x Hx ->%list_elem_of_singleton.
Qed.

Lemma keys_distinct_delete m k : keys_distinct m → keys_distinct (delete k m).
Proof.
  destruct m as [es]. unfold keys_distinct, delete, JsMap_delete. simpl.
  induction es as [|[k' v'] es IH]; [done|].
  simpl. intros [Hfresh Hrest]%NoDup_cons.
  destruct (decide (k' = k)) as [->|Hne].
  - rewrite filter_cons_False by (simpl; intros Hk; by apply Hk). by apply IH.
  - rewrite filter_cons_True by done. simpl. apply NoDup_cons.
    split; [|by apply IH].
    intros ([k0 v0] & Hk0 & [_ Hin]%list_elem_of_filter)%list_elem_of_fmap.
    simpl in Hk0. subst k0. apply Hfresh.
    by apply (list_elem_of_fmap_2 fst _ (k', v0)).
Qed.

(** Revoking the URLs of the entries, one after the other. *)
Lemma revoke_each (es : list (string * string)) (w : World) :
  foldl (λ w e, revoke [e.2] w) w es = revoke (reverse es.*2) w.
Proof.
  revert w. induction es as [|[k v] es IH]; intros w; simpl.
  - by destruct w.
  - rewrite IH, reverse_cons. unfold revoke. simpl.
    by rewrite <- app_assoc.
Qed.

End JsMapFacts.

(* ================================================================== *)
(** * The image store: what a run may change *)

Ltac run :=
  unfold mbind, M_bind, mret, M_ret, try_catch, throw, settle, get_world,
    modify, console_log, console_warn in *; simpl in *.

Lemma grows_refl (w : World) : grows w w.
Proof. by unfold grows. Qed.

Lemma grows_trans (w1 w2 w3 : World) :
  grows w1 w2 → grows w2 w3 → grows w1 w3.
Proof.
  intros (Hs1 & Hc1 & Hi1 & Hw1 & Hr1) (Hs2 & Hc2 & Hi2 & Hw2 & Hr2).
  unfold grows. repeat split; try congruence; try lia. eauto.
Qed.

Lemma warnings_print_log (m : Message) (w : World) :
  warnings (print (LevelLog, m) w) = warnings w.
Proof. reflexivity. Qed.

Lemma warnings_print_warn (m : Message) (w : World) :
  warnings (print (LevelWarn, m) w) = S (warnings w).
Proof. reflexivity. Qed.

Lemma grows_print (entry : Level * Message) (w : World) :
  grows w (print entry w).
Proof.
  unfold grows. repeat split; try done.
  destruct entry as [[] m]; [by rewrite warnings_print_log|].
  rewrite warnings_print_warn. lia.
Qed.

Lemma generated_id_not_inline (stamp : string) :
  startsWith ("img_" +:+ stamp) "data:image" = false.
Proof. reflexivity. Qed.

Section ImageStoreFacts.

Context (E : Env).

(** [saveImageBlob] either stores the file under a fresh [img_] identifier
    without any warning, or rejects after at least one warning and leaves
    the store as it was. *)
Lemma saveImageBlob_run (file : Blob) (w : World) :
  (∃ w', saveImageBlob E file w =
           (Ok ("img_" +:+ id_stamp E (db_requests w)), w') ∧
         grows w w' ∧ warnings w' = warnings w ∧
         db_requests w' = S (db_requests w) ∧
         images w' = <["img_" +:+ id_stamp E (db_requests w) := file]>
                       (images w)) ∨
  (∃ e w', saveImageBlob E file w = (Throw e, w') ∧
           grows w w' ∧ warnings w < warnings w' ∧ images w' = images w).
Proof.
  unfold saveImageBlob, openDB. run.
  destruct (db_opens E (db_requests w)) eqn:Hopen; simpl.
  - destruct (request_ok E (db_requests w)) eqn:Hreq; simpl.
    + left. eexists. split; [done|]. unfold grows, warnings. simpl.
      repeat split; try done; try lia. intros k Hk.
      destruct (decide ("img_" +:+ id_stamp E (db_requests w) = k)) as [<-|].
      * by rewrite lookup_insert_eq.
      * by rewrite lookup_insert_ne.
    + right. do 2 eexists. split; [done|]. unfold grows, warnings. simpl.
      repeat split; try done; lia.
  - right. do 2 eexists. split; [done|]. unfold grows, warnings. simpl.
    repeat split; try done; lia.
Qed.

Lemma convert_run (dataUri : string) (w : World) :
  (∃ blob w', fetch_blob E dataUri = Some blob ∧
     convert E dataUri w =
       (Ok ("img_" +:+ id_stamp E (db_requests w)), w') ∧
     grows w w' ∧ warnings w' = warnings w ∧
     images w' !! ("img_" +:+ id_stamp E (db_requests w)) = Some blob) ∨
  (∃ e w', convert E dataUri w = (Throw e, w') ∧ grows w w' ∧
           images w' = images w).
Proof.
  unfold convert. destruct (fetch_blob E dataUri) as [blob|] eqn:Hfetch.
  - run. destruct (saveImageBlob_run blob w)
      as [(w' & Hrun & Hg & Hw & _ & Hi)|(e & w' & Hrun & Hg & _ & Hi)];
      rewrite Hrun.
    + left. exists blob, w'. do 4 (split; [done|]).
      by rewrite Hi, lookup_insert_eq.
    + right. by exists e, w'.
  - right. exists FetchError, w. by run.
Qed.

(** A put that is rejected makes the whole conversion reject. *)
Lemma convert_put_fails (dataUri : string) (blob : Blob) (e : Error)
    (w w' : World) :
  fetch_blob E dataUri = Some blob →
  saveImageBlob E blob w = (Throw e, w') →
  convert E dataUri w = (Throw e, w').
Proof. intros Hf Hput. unfold convert. rewrite Hf. by run. Qed.

(** ** The inner loop *)

Lemma migrateImage_failure (postId : string) (i : nat) (s : string)
    (n : nat) (w w1 : World) (e : Error) :
  startsWith s "data:image" = true →
  convert E s w = (Throw e, w1) →
  migrateImage E postId i (JStr s) n w =
    (Ok (JStr s, n),
     print (LevelWarn, MsgMigrateImageFailed (i + 1) postId) w1).
Proof. intros Hs Hc. unfold migrateImage. rewrite Hs. run. by rewrite Hc. Qed.

Lemma migrateImage_success (postId : string) (i : nat) (s : string)
    (n : nat) (w w1 : World) (imageId : string) :
  startsWith s "data:image" = true →
  convert E s w = (Ok imageId, w1) →
  migrateImage E postId i (JStr s) n w =
    (Ok (JStr imageId, S n),
     print (LevelLog, MsgMigratedImage (i + 1) postId) w1).
Proof. intros Hs Hc. unfold migrateImage. rewrite Hs. run. by rewrite Hc. Qed.

Lemma migrateImage_other (postId : string) (i : nat) (v : jsval)
    (n : nat) (w : World) :
  is_inline v = false →
  migrateImage E postId i v n w = (Ok (v, n), w).
Proof.
  intros Hv. unfold migrateImage. destruct v; try done.
  simpl in Hv. rewrite Hv. by destruct (startsWith s "img_").
Qed.

Lemma migrateImage_run (postId : string) (i : nat) (v : jsval)
    (n : nat) (w : World) :
  ∃ v' n' w',
    migrateImage E postId i v n w = (Ok (v', n'), w') ∧
    grows w w' ∧ n ≤ n' ∧ (n' = n → v' = v) ∧
    (warnings w' = warnings w → is_inline v' = false).
Proof.
  destruct (is_inline v) eqn:Hv.
  - destruct v as [| | |s| |]; try done. simpl in Hv.
    destruct (convert_run s w)
      as [(blob & w1 & _ & Hc & Hg & Hw & _)|(e & w1 & Hc & Hg & _)].
    + eexists _, _, _. split; [by apply migrateImage_success|].
      split; [eapply grows_trans; [done|apply grows_print]|].
      split; [lia|]. split; [lia|done].
    + eexists _, _, _. split; [by eapply migrateImage_failure|].
      split; [eapply grows_trans; [done|apply grows_print]|].
      split; [lia|]. split; [done|].
      rewrite warnings_print_warn. destruct Hg as (_ & _ & _ & Hle & _). lia.
  - exists v, n, w. by rewrite migrateImage_other.
Qed.

Lemma migrateImages_cons (postId : string) (i : nat) (v : jsval)
    (rest : list jsval) (n : nat) (w : World)
    (v' : jsval) (n1 : nat) (w1 : World)
    (rest' : list jsval) (n2 : nat) (w2 : World) :
  migrateImage E postId i v n w = (Ok (v', n1), w1) →
  migrateImages E postId (S i) rest n1 w1 = (Ok (rest', n2), w2) →
  migrateImages E postId i (v :: rest) n w = (Ok (v' :: rest', n2), w2).
Proof. intros H1 H2. simpl. run. by rewrite H1, H2. Qed.

Lemma migrateImages_run (postId : string) (entries : list jsval) :
  ∀ (i n : nat) (w : World),
  ∃ entries' n' w',
    migrateImages E postId i entries n w = (Ok (entries', n'), w') ∧
    grows w w' ∧ n ≤ n' ∧ (n' = n → entries' = entries) ∧
    (warnings w' = warnings w → existsb is_inline entries' = false) ∧
    length entries' = length entries.
Proof.
  induction entries as [|v rest IH]; intros i n w.
  - by exists [], n, w.
  - destruct (migrateImage_run postId i v n w)
      as (v' & n1 & w1 & Hrun1 & Hg1 & Hn1 & Hid1 & Hw1).
    destruct (IH (S i) n1 w1)
      as (rest' & n2 & w2 & Hrun2 & Hg2 & Hn2 & Hid2 & Hw2 & Hlen).
    exists (v' :: rest'), n2, w2.
    split; [by eapply migrateImages_cons|].
    split; [by eapply grows_trans|]. split; [lia|].
    pose proof Hg1 as (_ & _ & _ & Hle1 & _).
    pose proof Hg2 as (_ & _ & _ & Hle2 & _).
    split; [|split].
    + intros ->. assert (n1 = n) as -> by lia.
      by rewrite Hid1, Hid2.
    + intros Heq. simpl. rewrite Hw1, Hw2 by lia. done.
    + simpl. by rewrite Hlen.
Qed.

Lemma migrateImages_settled (postId : string) (entries : list jsval) :
  existsb is_inline entries = false →
  ∀ (i n : nat) (w : World),
  migrateImages E postId i entries n w = (Ok (entries, n), w).
Proof.
  induction entries as [|v rest IH]; intros Hs i n w; [done|].
  simpl in Hs. apply orb_false_iff in Hs as [Hv Hrest].
  eapply migrateImages_cons; [by apply migrateImage_other|by apply IH].
Qed.

(** ** The outer loop *)

Lemma inline_truthy (s : string) :
  startsWith s "data:image" = true → truthy_string s = true.
Proof. by destruct s. Qed.

Lemma set_post_images_same (p : Post) (v : jsval) :
  post_images p = Some v → set_post_images v p = p.
Proof. destruct p. simpl. by intros ->. Qed.

Lemma images_array_dec (p : Post) :
  (∃ entries, post_images p = Some (JArr entries)) ∨
  (∀ entries, post_images p ≠ Some (JArr entries)).
Proof. destruct (post_images p) as [[]|]; eauto. Qed.

Lemma migratePost_array (p : Post) (entries entries' : list jsval)
    (n n' : nat) (w w' : World) :
  post_images p = Some (JArr entries) →
  migrateImages E (post_id p) 0 entries n w = (Ok (entries', n'), w') →
  migratePost E p n w = (Ok (set_post_images (JArr entries') p, n'), w').
Proof. intros Hp Hrun. unfold migratePost. rewrite Hp. run. by rewrite Hrun. Qed.

Lemma migratePost_legacy_success (p : Post) (s imageId : string)
    (n : nat) (w w1 : World) :
  (∀ entries, post_images p ≠ Some (JArr entries)) →
  post_image p = Some (JStr s) →
  startsWith s "data:image" = true →
  convert E s w = (Ok imageId, w1) →
  migratePost E p n w =
    (Ok (delete_post_image (set_post_images (JArr [JStr imageId]) p), S n),
     print (LevelLog, MsgMigratedSingle (post_id p)) w1).
Proof.
  intros Hno Himg Hs Hc. unfold migratePost.
  rewrite Himg, Hs, (inline_truthy s Hs). run.
  destruct (post_images p) as [[]|]; try (by rewrite Hc);
    by destruct (Hno items).
Qed.

Lemma migratePost_legacy_failure (p : Post) (s : string) (e : Error)
    (n : nat) (w w1 : World) :
  (∀ entries, post_images p ≠ Some (JArr entries)) →
  post_image p = Some (JStr s) →
  startsWith s "data:image" = true →
  convert E s w = (Throw e, w1) →
  migratePost E p n w =
    (Ok (p, n), print (LevelWarn, MsgMigrateSingleFailed (post_id p)) w1).
Proof.
  intros Hno Himg Hs Hc. unfold migratePost.
  rewrite Himg, Hs, (inline_truthy s Hs). run.
  destruct (post_images p) as [[]|]; try (by rewrite Hc);
    by destruct (Hno items).
Qed.

Lemma migratePost_settled (p : Post) (n : nat) (w : World) :
  needs_migration p = false →
  migratePost E p n w = (Ok (p, n), w).
Proof.
  unfold needs_migration. intros Hs.
  destruct (images_array_dec p) as [[entries Hp]|Hno].
  - rewrite Hp in Hs.
    erewrite migratePost_array; [|done|by apply migrateImages_settled].
    by rewrite set_post_images_same.
  - unfold migratePost.
    destruct (post_images p) as [[]|]; try (by destruct (Hno items));
      destruct (post_image p) as [[]|]; try done; by rewrite Hs.
Qed.

Lemma migratePost_run (p : Post) (n : nat) (w : World) :
  ∃ p' n' w',
    migratePost E p n w = (Ok (p', n'), w') ∧
    grows w w' ∧ n ≤ n' ∧ (n' = n → p' = p) ∧
    (warnings w' = warnings w → needs_migration p' = false).
Proof.
  destruct (needs_migration p) eqn:Hneeds;
    [|exists p, n, w; by rewrite migratePost_settled].
  destruct (images_array_dec p) as [[entries Hp]|Hno'].
  - destruct (migrateImages_run (post_id p) entries 0 n w)
      as (entries' & n' & w' & Hrun & Hg & Hn & Hid & Hw & _).
    eexists _, n', w'. split; [by eapply migratePost_array|].
    split; [done|]. split; [done|]. split.
    + intros Heq. rewrite (Hid Heq). by apply set_post_images_same.
    + intros Heq. unfold needs_migration. simpl. by apply Hw.
  - assert (∃ s, post_image p = Some (JStr s) ∧
                 startsWith s "data:image" = true) as (s & Himg & Hs).
    { unfold needs_migration in Hneeds.
      destruct (post_images p) as [[]|]; try (by destruct (Hno' items));
        destruct (post_image p) as [[]|]; try done;
        apply andb_true_iff in Hneeds as [_ ?]; eauto. }
    destruct (convert_run s w)
      as [(blob & w1 & _ & Hc & Hg & Hw & _)|(e & w1 & Hc & Hg & _)].
    + eexists _, _, _.
      split; [by eapply migratePost_legacy_success|].
      split; [eapply grows_trans; [done|apply grows_print]|].
      split; [lia|]. split; [lia|done].
    + eexists _, _, _.
      split; [by eapply migratePost_legacy_failure|].
      split; [eapply grows_trans; [done|apply grows_print]|].
      split; [lia|]. split; [done|].
      rewrite warnings_print_warn. destruct Hg as (_ & _ & _ & Hle & _). lia.
Qed.

Lemma migratePosts_cons (p : Post) (rest : list Post) (n : nat) (w : World)
    (p' : Post) (n1 : nat) (w1 : World)
    (rest' : list Post) (n2 : nat) (w2 : World) :
  migratePost E p n w = (Ok (p', n1), w1) →
  migratePosts E rest n1 w1 = (Ok (rest', n2), w2) →
  migratePosts E (p :: rest) n w = (Ok (p' :: rest', n2), w2).
Proof. intros H1 H2. simpl. run. by rewrite H1, H2. Qed.

Lemma migratePosts_settled (posts : list Post) :
  Forall (λ p, needs_migration p = false) posts →
  ∀ (n : nat) (w : World),
  migratePosts E posts n w = (Ok (posts, n), w).
Proof.
  induction 1 as [|p rest Hp _ IH]; intros n w; [done|].
  eapply migratePosts_cons; [by apply migratePost_settled|by apply IH].
Qed.

Lemma migratePosts_run (posts : list Post) :
  ∀ (n : nat) (w : World),
  ∃ posts' n' w',
    migratePosts E posts n w = (Ok (posts', n'), w') ∧
    grows w w' ∧ n ≤ n' ∧ (n' = n → posts' = posts) ∧
    (warnings w' = warnings w →
       Forall (λ p, needs_migration p = false) posts') ∧
    length posts' = length posts.
Proof.
  induction posts as [|p rest IH]; intros n w.
  - by exists [], n, w.
  - destruct (migratePost_run p n w)
      as (p' & n1 & w1 & Hrun1 & Hg1 & Hn1 & Hid1 & Hw1).
    destruct (IH n1 w1)
      as (rest' & n2 & w2 & Hrun2 & Hg2 & Hn2 & Hid2 & Hw2 & Hlen).
    exists (p' :: rest'), n2, w2.
    split; [by eapply migratePosts_cons|].
    split; [by eapply grows_trans|]. split; [lia|].
    pose proof Hg1 as (_ & _ & _ & Hle1 & _).
    pose proof Hg2 as (_ & _ & _ & Hle2 & _).
    split; [|split].
    + intros ->. assert (n1 = n) as -> by lia.
      by rewrite Hid1, Hid2.
    + intros Heq. constructor; [apply Hw1|apply Hw2]; lia.
    + simpl. by rewrite Hlen.
Qed.

(** ** The whole pass *)

Lemma migrateOldData_unfold (w : World) (posts' : list Post) (n' : nat)
    (w' : World) :
  migratePosts E (DataService.getPosts (storage w)) 0 w
    = (Ok (posts', n'), w') →
  migrateOldData E w =
    (Ok tt,
     if bool_decide (0 < n')
     then print (LevelLog, MsgMigrationComplete n')
            (with_storage (set_posts posts') w')
     else w').
Proof.
  intros Hrun. unfold migrateOldData. run. rewrite Hrun.
  by destruct (bool_decide (0 < n')).
Qed.

(** The pass never rejects, and what [getPosts] returns afterwards is the
    rewritten collection, whether or not it had to be written back. *)
Lemma migrateOldData_run (w : World) :
  ∃ posts' n' w',
    migratePosts E (DataService.getPosts (storage w)) 0 w
      = (Ok (posts', n'), w') ∧
    fst (migrateOldData E w) = Ok tt ∧
    DataService.getPosts (storage (snd (migrateOldData E w))) = posts' ∧
    imageUrlCache (snd (migrateOldData E w)) = imageUrlCache w ∧
    (∀ k, is_Some (images w !! k) →
          is_Some (images (snd (migrateOldData E w)) !! k)) ∧
    warnings (snd (migrateOldData E w)) = warnings w' ∧
    warnings w ≤ warnings w' ∧
    (warnings w' = warnings w →
       Forall (λ p, needs_migration p = false) posts').
Proof.
  destruct (migratePosts_run (DataService.getPosts (storage w)) 0 w)
    as (posts' & n' & w' & Hrun & Hg & _ & Hid & Hw & _).
  exists posts', n', w'. split; [done|].
  rewrite (migrateOldData_unfold w posts' n' w' Hrun).
  destruct Hg as (Hst & Hc & Hi & Hle & _).
  destruct (bool_decide (0 < n')) eqn:Hn; simpl.
  - by repeat split.
  - apply bool_decide_eq_false in Hn.
    assert (n' = 0) as -> by lia.
    repeat split; try done. by rewrite Hst, Hid.
Qed.

End ImageStoreFacts.

(* ================================================================== *)
(** * Migration *)

(** The scenario of the spec: a post whose only image is the inline PNG with
    content "ABC" ends with a generated identifier under which the blob
    store holds "ABC", and a second pass leaves it alone. *)
Example migration_scenario :
  let p := sample_post "post_1" (Some (JArr [JStr abc_png])) None in
  let w1 := snd (migrateOldData reliable (fresh_page [p])) in
  DataService.getPosts (storage w1) =
    [sample_post "post_1"
       (Some (JArr [JStr "img_1700000000000_r4nd0m0"])) None] ∧
  images w1 !! "img_1700000000000_r4nd0m0" = Some "ABC" ∧
  db_requests w1 = 1 ∧
  snd (migrateOldData reliable w1) = w1.
Proof. repeat split; vm_compute; reflexivity. Qed.

(** C1.  When a first migration pass printed no warning (every conversion
    it attempted succeeded), a second pass in a row, in whatever condition
    the browser then is, returns normally and changes nothing at all: the
    stored collections (the Post collection in particular) are the ones left
    by the first pass, the image store holds the same blobs, and not a single
    IndexedDB request, hence no blob-store write, is issued. *)
Theorem migrateOldData_second_run_noop (E1 E2 : Env) (w : World) :
  let w1 := snd (migrateOldData E1 w) in
  warnings w1 = warnings w →
  let w2 := snd (migrateOldData E2 w1) in
  migrateOldData E2 w1 = (Ok tt, w1) ∧
  DataService.getPosts (storage w2) = DataService.getPosts (storage w1) ∧
  storage w2 = storage w1 ∧
  images w2 = images w1 ∧
  db_requests w2 = db_requests w1 ∧
  console w2 = console w1.
Proof.
  intros w1 Hquiet w2.
  destruct (migrateOldData_run E1 w)
    as (posts' & n' & w' & _ & _ & Hposts & _ & _ & Hw & _ & Hsettled).
  fold w1 in Hposts, Hw.
  assert (Hrun2 : migrateOldData E2 w1 = (Ok tt, w1)).
  { rewrite (migrateOldData_unfold E2 w1 posts' 0 w1); [done|].
    rewrite Hposts. apply migratePosts_settled, Hsettled. congruence. }
  subst w2. by rewrite Hrun2.
Qed.

Lemma migrateOldData_second_run_noop_witness :
  DataService.getPosts
    (storage (snd (migrateOldData reliable
                     (fresh_page [gallery_post; legacy_post])))) =
    [sample_post "post_1"
       (Some (JArr [JStr "img_1700000000000_r4nd0m0"; JStr "img_x";
                    JStr "img_1700000000000_r4nd0m1"; JNull])) None;
     sample_post "post_2"
       (Some (JArr [JStr "img_1700000000000_r4nd0m2"])) None] ∧
  migrateOldData flaky
    (snd (migrateOldData reliable (fresh_page [gallery_post; legacy_post]))) =
  (Ok tt,
   snd (migrateOldData reliable (fresh_page [gallery_post; legacy_post]))).
Proof.
  split; [vm_compute; reflexivity|].
  apply (migrateOldData_second_run_noop reliable flaky
           (fresh_page [gallery_post; legacy_post])).
  vm_compute. reflexivity.
Defined.

Section Positions.

Context (E : Env).

(** The loops are sequential: running a sequence is running its first part
    and then, from the state reached, the rest. *)
Lemma migrateImages_app (postId : string) (l1 l2 : list jsval) :
  ∀ (i n : nat) (w : World) r1 n1 w1 r2 n2 w2,
  migrateImages E postId i l1 n w = (Ok (r1, n1), w1) →
  migrateImages E postId (i + length l1) l2 n1 w1 = (Ok (r2, n2), w2) →
  migrateImages E postId i (l1 ++ l2) n w = (Ok (r1 ++ r2, n2), w2).
Proof.
  induction l1 as [|v l1 IH]; intros i n w r1 n1 w1 r2 n2 w2 H1 H2.
  - simpl in *. run. injection H1 as <- <- <-.
    by rewrite Nat.add_0_r in H2.
  - destruct (migrateImage_run E postId i v n w)
      as (v' & na & wa & Hv & _).
    destruct (migrateImages_run E postId l1 (S i) na wa)
      as (l1' & nb & wb & Hl1 & _).
    rewrite (migrateImages_cons E _ _ _ _ _ _ _ _ _ _ _ _ Hv Hl1) in H1.
    injection H1 as <- <- <-.
    simpl in H2. rewrite <- Nat.add_succ_comm in H2.
    eapply migrateImages_cons; [done|]. by eapply IH.
Qed.

Lemma migratePosts_app (l1 l2 : list Post) :
  ∀ (n : nat) (w : World) r1 n1 w1 r2 n2 w2,
  migratePosts E l1 n w = (Ok (r1, n1), w1) →
  migratePosts E l2 n1 w1 = (Ok (r2, n2), w2) →
  migratePosts E (l1 ++ l2) n w = (Ok (r1 ++ r2, n2), w2).
Proof.
  induction l1 as [|p l1 IH]; intros n w r1 n1 w1 r2 n2 w2 H1 H2.
  - simpl in *. run. by injection H1 as <- <- <-.
  - destruct (migratePost_run E p n w) as (p' & na & wa & Hp & _).
    destruct (migratePosts_run E l1 na wa) as (l1' & nb & wb & Hl1 & _).
    rewrite (migratePosts_cons E _ _ _ _ _ _ _ _ _ _ Hp Hl1) in H1.
    injection H1 as <- <- <-.
    eapply migratePosts_cons; [done|]. by eapply IH.
Qed.

Lemma migrateImages_length (postId : string) (entries : list jsval)
    (i n : nat) (w : World) entries' n' w' :
  migrateImages E postId i entries n w = (Ok (entries', n'), w') →
  length entries' = length entries.
Proof.
  intros Hrun.
  destruct (migrateImages_run E postId entries i n w)
    as (r & nr & wr & Hr & _ & _ & _ & _ & Hlen).
  rewrite Hr in Hrun. by injection Hrun as <- _ _.
Qed.

Lemma migratePosts_length (posts : list Post) (n : nat) (w : World)
    posts' n' w' :
  migratePosts E posts n w = (Ok (posts', n'), w') →
  length posts' = length posts.
Proof.
  intros Hrun.
  destruct (migratePosts_run E posts n w)
    as (r & nr & wr & Hr & _ & _ & _ & _ & Hlen).
  rewrite Hr in Hrun. by injection Hrun as <- _ _.
Qed.

Lemma migrateOldData_posts (w : World) posts' n' w' :
  migratePosts E (DataService.getPosts (storage w)) 0 w
    = (Ok (posts', n'), w') →
  fst (migrateOldData E w) = Ok tt ∧
  DataService.getPosts (storage (snd (migrateOldData E w))) = posts'.
Proof.
  intros Hrun.
  destruct (migrateOldData_run E w)
    as (r & nr & wr & Hr & Hok & Hposts & _).
  rewrite Hr in Hrun. by injection Hrun as <- _ _.
Qed.

End Positions.

(** C5.  Take any stored post [p] (after the posts [ppre]) whose image
    array holds inline data [s] (after the entries [ipre]), and suppose that
    the conversion of [s], fetch and blob-store put, is rejected in the state
    [w2] in which the loop reaches it.  Then the pass goes on: the remaining
    entries [isuf] and the remaining posts [psuf] are processed from the
    state the failure left (one more warning on the console), the pass
    returns normally, and in the collection read back afterwards the post
    stands at its position with an image array of the same length that still
    holds [s] at the position it had. *)
Theorem migration_keeps_failed_image (E : Env) (w : World)
    (ppre psuf : list Post) (p : Post) (ipre isuf : list jsval) (s : string)
    (ppre' : list Post) (c1 : nat) (w1 : World)
    (ipre' : list jsval) (c2 : nat) (w2 : World) (e : Error) (w3 : World) :
  DataService.getPosts (storage w) = ppre ++ p :: psuf →
  post_images p = Some (JArr (ipre ++ JStr s :: isuf)) →
  startsWith s "data:image" = true →
  migratePosts E ppre 0 w = (Ok (ppre', c1), w1) →
  migrateImages E (post_id p) 0 ipre c1 w1 = (Ok (ipre', c2), w2) →
  convert E s w2 = (Throw e, w3) →
  ∃ isuf' c4 w4 psuf' c5 w5,
    migrateImages E (post_id p) (S (length ipre)) isuf c2
      (print (LevelWarn, MsgMigrateImageFailed (length ipre + 1) (post_id p))
         w3)
      = (Ok (isuf', c4), w4) ∧
    migratePosts E psuf c4 w4 = (Ok (psuf', c5), w5) ∧
    fst (migrateOldData E w) = Ok tt ∧
    let stored := DataService.getPosts (storage (snd (migrateOldData E w))) in
    let p' := set_post_images (JArr (ipre' ++ JStr s :: isuf')) p in
    stored = ppre' ++ p' :: psuf' ∧
    length stored = length (ppre ++ p :: psuf) ∧
    stored !! length ppre = Some p' ∧
    post_images p' = Some (JArr (ipre' ++ JStr s :: isuf')) ∧
    length (ipre' ++ JStr s :: isuf') = length (ipre ++ JStr s :: isuf) ∧
    (ipre' ++ JStr s :: isuf') !! length ipre = Some (JStr s).
Proof.
  intros Hposts Hp Hs Hppre Hipre Hfail.
  pose proof (migrateImage_failure E (post_id p) (length ipre) s c2 w2 w3 e
                Hs Hfail) as Hstep.
  destruct (migrateImages_run E (post_id p) isuf (S (length ipre)) c2
              (print (LevelWarn,
                      MsgMigrateImageFailed (length ipre + 1) (post_id p)) w3))
    as (isuf' & c4 & w4 & Hisuf & _ & _ & _ & _ & Hlen_isuf).
  destruct (migratePosts_run E psuf c4 w4)
    as (psuf' & c5 & w5 & Hpsuf & _ & _ & _ & _ & Hlen_psuf).
  pose proof (migrateImages_length E _ _ _ _ _ _ _ _ Hipre) as Hlen_ipre.
  pose proof (migratePosts_length E _ _ _ _ _ _ Hppre) as Hlen_ppre.
  exists isuf', c4, w4, psuf', c5, w5.
  split; [done|]. split; [done|].
  assert (Hentries :
    migrateImages E (post_id p) 0 (ipre ++ JStr s :: isuf) c1 w1 =
      (Ok (ipre' ++ JStr s :: isuf', c4), w4)).
  { eapply migrateImages_app; [done|]. rewrite Nat.add_0_l.
    by eapply migrateImages_cons. }
  pose proof (migratePost_array E p _ _ _ _ _ _ Hp Hentries) as Hpost.
  assert (Hall :
    migratePosts E (ppre ++ p :: psuf) 0 w =
      (Ok (ppre' ++
           set_post_images (JArr (ipre' ++ JStr s :: isuf')) p :: psuf', c5),
       w5)).
  { eapply migratePosts_app; [done|]. by eapply migratePosts_cons. }
  rewrite <- Hposts in Hall.
  destruct (migrateOldData_posts E w _ _ _ Hall) as [Hok Hstored].
  split; [done|]. cbv zeta. rewrite Hstored.
  split; [done|].
  split; [rewrite !length_app; simpl; lia|].
  split; [by rewrite <- Hlen_ppre, list_lookup_middle|].
  split; [done|].
  split; [rewrite !length_app; simpl; lia|].
  by rewrite <- Hlen_ipre, list_lookup_middle.
Qed.

Lemma migration_keeps_failed_image_witness :
  let w := fresh_page [gallery_post; legacy_post] in
  fst (migrateOldData flaky w) = Ok tt ∧
  ∃ isuf' psuf',
    DataService.getPosts (storage (snd (migrateOldData flaky w))) =
      set_post_images
        (JArr ([JStr "img_1700000000000_r4nd0m0"; JStr "img_x"] ++
               JStr abc_png :: isuf')) gallery_post :: psuf'.
Proof.
  set (w := fresh_page [gallery_post; legacy_post]).
  set (w2 := snd (migrateImages flaky "post_1" 0
                    [JStr abc_png; JStr "img_x"] 0 w)).
  destruct (migration_keeps_failed_image flaky w
              [] [legacy_post] gallery_post
              [JStr abc_png; JStr "img_x"] [JNull] abc_png
              [] 0 w
              [JStr "img_1700000000000_r4nd0m0"; JStr "img_x"] 1 w2
              RequestError (snd (convert flaky abc_png w2)))
    as (isuf' & c4 & w4 & psuf' & c5 & w5 & _ & _ & Hok & Hstored & _);
    try (vm_compute; reflexivity).
  split; [exact Hok|]. exists isuf', psuf'. exact Hstored.
Defined.

Example migration_keeps_failed_image_run :
  DataService.getPosts
    (storage (snd (migrateOldData flaky
                     (fresh_page [gallery_post; legacy_post])))) =
  [sample_post "post_1"
     (Some (JArr [JStr "img_1700000000000_r4nd0m0"; JStr "img_x";
                  JStr abc_png; JNull])) None;
   sample_post "post_2"
     (Some (JArr [JStr "img_1700000000000_r4nd0m2"])) None].
Proof. vm_compute. reflexivity. Qed.

Section Writes.

Context (E : Env).



Lemma writes_generated_print (entry : Level * Message) (w w' : World) :
  writes_generated E w w' → writes_generated E w (print entry w').
Proof. done. Qed.









End Writes.





(* ================================================================== *)
(** * The URL cache *)

Section UrlCache.

Context (E : Env).

Lemma cache_sound_mono (w w' : World) :
  imageUrlCache w' = imageUrlCache w →
  (∀ k, is_Some (images w !! k) → is_Some (images w' !! k)) →
  cache_sound w → cache_sound w'.
Proof.
  intros Hc Hi Hsound imageId url Hlook. rewrite Hc in Hlook.
  destruct (Hsound imageId url Hlook) as (Hin & Hsome & Hurl). eauto.
Qed.

(** [getImageBlob] resolves exactly when the request is answered and the
    blob is there; it changes neither the store nor the cache. *)
Lemma getImageBlob_run (imageId : string) (w : World) :
  let n := db_requests w in
  (∃ blob w', getImageBlob E imageId w = (Ok blob, w') ∧
     images w !! imageId = Some blob ∧
     db_opens E n = true ∧ request_ok E n = true ∧
     images w' = images w ∧ imageUrlCache w' = imageUrlCache w ∧
     urls_created w' = urls_created w) ∨
  (∃ e w', getImageBlob E imageId w = (Throw e, w') ∧
     (images w !! imageId = None ∨
      db_opens E n = false ∨ request_ok E n = false) ∧
     images w' = images w ∧ imageUrlCache w' = imageUrlCache w).
Proof.
  unfold getImageBlob, openDB. run.
  destruct (db_opens E (db_requests w)) eqn:Hopen; simpl.
  - destruct (request_ok E (db_requests w)) eqn:Hreq; simpl.
    + destruct (images w !! imageId) as [blob|] eqn:Hblob.
      * left. by eexists _, _.
      * right. eexists _, _. split; [done|]. eauto.
    + right. eexists _, _. split; [done|]. eauto.
  - right. eexists _, _. split; [done|]. eauto.
Qed.

Lemma getImageUrl_cached (imageId url : string) (w : World) :
  imageUrlCache w !! imageId = Some url →
  getImageUrl E imageId w = (Ok url, w).
Proof. intros Hc. unfold getImageUrl. run. by rewrite Hc. Qed.

Lemma getImageUrl_inline (imageId : string) (w : World) :
  imageUrlCache w !! imageId = None →
  startsWith imageId "data:image" = true →
  getImageUrl E imageId w = (Ok imageId, w).
Proof. intros Hc Hs. unfold getImageUrl. run. by rewrite Hc, Hs. Qed.

Lemma getImageUrl_unavailable (imageId : string) (w w1 : World) (e : Error) :
  imageUrlCache w !! imageId = None →
  startsWith imageId "data:image" = false →
  getImageBlob E imageId w = (Throw e, w1) →
  getImageUrl E imageId w =
    (Ok "", print (LevelWarn, MsgErrorGettingUrl) w1).
Proof.
  intros Hc Hs Hget. unfold getImageUrl. run. by rewrite Hc, Hs, Hget.
Qed.

Lemma getImageUrl_fresh (imageId : string) (w w1 : World) (blob : Blob) :
  imageUrlCache w !! imageId = None →
  startsWith imageId "data:image" = false →
  getImageBlob E imageId w = (Ok blob, w1) →
  getImageUrl E imageId w =
    (Ok ("blob:" +:+ url_token E (urls_created w1)),
     with_cache (insert imageId ("blob:" +:+ url_token E (urls_created w1)))
       (count_url w1)).
Proof.
  intros Hc Hs Hget. unfold getImageUrl. run. by rewrite Hc, Hs, Hget.
Qed.

(** [getImageUrl] never rejects. *)
Lemma getImageUrl_total (imageId : string) (w : World) :
  ∃ result w', getImageUrl E imageId w = (Ok result, w').
Proof.
  destruct (imageUrlCache w !! imageId) as [url|] eqn:Hc.
  { eexists _, _. by apply getImageUrl_cached. }
  destruct (startsWith imageId "data:image") eqn:Hs.
  { eexists _, _. by apply getImageUrl_inline. }
  destruct (getImageBlob_run imageId w)
    as [(blob & w1 & Hget & _)|(e & w1 & Hget & _)].
  - eexists _, _. by eapply getImageUrl_fresh.
  - eexists _, _. by eapply getImageUrl_unavailable.
Qed.

(** ** The cache invariant *)

Lemma getImageUrl_sound (imageId : string) (w : World) :
  cache_sound w → cache_sound (snd (getImageUrl E imageId w)).
Proof.
  intros Hsound.
  destruct (imageUrlCache w !! imageId) as [url|] eqn:Hc.
  { by rewrite (getImageUrl_cached _ _ _ Hc). }
  destruct (startsWith imageId "data:image") eqn:Hs.
  { by rewrite (getImageUrl_inline _ _ Hc Hs). }
  destruct (getImageBlob_run imageId w)
    as [(blob & w1 & Hget & Hblob & _ & _ & Hi & Hc1 & _)
       |(e & w1 & Hget & _ & Hi & Hc1)].
  - rewrite (getImageUrl_fresh _ _ _ _ Hc Hs Hget). simpl.
    intros k url. simpl. rewrite Hi, Hc1.
    destruct (decide (imageId = k)) as [<-|Hne].
    + rewrite JsMap_lookup_insert_eq. intros [= <-].
      split; [done|]. split; [by rewrite Hblob|]. eauto.
    + rewrite JsMap_lookup_insert_ne by done. apply Hsound.
  - rewrite (getImageUrl_unavailable _ _ _ _ Hc Hs Hget). simpl.
    intros k url. simpl. rewrite Hi, Hc1. apply Hsound.
Qed.

Lemma revokeImageUrl_sound (imageId : string) (w : World) :
  cache_sound w → cache_sound (snd (revokeImageUrl imageId w)).
Proof.
  intros Hsound. unfold revokeImageUrl. run.
  destruct (imageUrlCache w !! imageId) as [url|] eqn:Hc; simpl; [|done].
  intros k url'. simpl. intros Hlook.
  apply JsMap_lookup_delete_Some in Hlook as [_ Hlook]. by apply Hsound.
Qed.

Lemma handleClearImages_sound (confirmed : bool) (w : World) :
  cache_sound w → cache_sound (snd (handleClearImages E confirmed w)).
Proof.
  intros Hsound. unfold handleClearImages, deleteAllImages, openDB.
  destruct confirmed; simpl; [|done]. run.
  destruct (db_opens E (db_requests w)); simpl;
    [destruct (request_ok E (db_requests w)); simpl|];
    intros k url; simpl; solve [done | apply Hsound].
Qed.

Lemma perform_sound (w : World) (a : Action) :
  cache_sound w → cache_sound (perform E w a).
Proof.
  intros Hsound. destruct a as [file|imageId|imageId|confirmed| |f]; simpl.
  - destruct (saveImageBlob_run E file w)
      as [(w' & Hrun & Hg & _)|(e & w' & Hrun & Hg & _)];
      rewrite Hrun; simpl; destruct Hg as (_ & Hc & Hi & _);
      by eapply cache_sound_mono.
  - by apply getImageUrl_sound.
  - by apply revokeImageUrl_sound.
  - by apply handleClearImages_sound.
  - destruct (migrateOldData_run E w) as (? & ? & ? & _ & _ & _ & Hc & Hi & _).
    by eapply cache_sound_mono.
  - done.
Qed.

Lemma reachable_sound (w : World) : reachable E w → cache_sound w.
Proof.
  intros (w0 & actions & Hempty & ->).
  assert (Hsound : cache_sound w0).
  { intros k url. by rewrite Hempty, JsMap_lookup_empty. }
  clear Hempty. revert w0 Hsound.
  induction actions as [|a actions IH]; intros w0 Hsound; [done|].
  simpl. by apply IH, perform_sound.
Qed.

(** The cache never holds two entries for one identifier. *)
Lemma perform_keys_distinct (w : World) (a : Action) :
  keys_distinct (imageUrlCache w) →
  keys_distinct (imageUrlCache (perform E w a)).
Proof.
  intros Hkeys. destruct a as [file|imageId|imageId|confirmed| |f]; simpl.
  - destruct (saveImageBlob_run E file w)
      as [(w' & Hrun & Hg & _)|(e & w' & Hrun & Hg & _)];
      rewrite Hrun; simpl; destruct Hg as (_ & Hc & _); by rewrite Hc.
  - destruct (imageUrlCache w !! imageId) as [url|] eqn:Hc.
    { by rewrite (getImageUrl_cached _ _ _ Hc). }
    destruct (startsWith imageId "data:image") eqn:Hs.
    { by rewrite (getImageUrl_inline _ _ Hc Hs). }
    destruct (getImageBlob_run imageId w)
      as [(blob & w1 & Hget & _ & _ & _ & _ & Hc1 & _)
         |(e & w1 & Hget & _ & _ & Hc1)].
    + rewrite (getImageUrl_fresh _ _ _ _ Hc Hs Hget). simpl. rewrite Hc1.
      by apply keys_distinct_insert.
    + rewrite (getImageUrl_unavailable _ _ _ _ Hc Hs Hget). simpl.
      by rewrite Hc1.
  - unfold revokeImageUrl. run.
    destruct (imageUrlCache w !! imageId); simpl; [|done].
    by apply keys_distinct_delete.
  - unfold handleClearImages, deleteAllImages, openDB.
    destruct confirmed; simpl; [|done]. run.
    destruct (db_opens E (db_requests w)); simpl;
      [destruct (request_ok E (db_requests w)); simpl|]; try done.
    apply keys_distinct_empty.
  - destruct (migrateOldData_run E w) as (? & ? & ? & _ & _ & _ & Hc & _).
    by rewrite Hc.
  - done.
Qed.

Lemma reachable_keys_distinct (w : World) :
  reachable E w → keys_distinct (imageUrlCache w).
Proof.
  intros (w0 & actions & Hempty & ->).
  assert (Hkeys : keys_distinct (imageUrlCache w0))
    by (rewrite Hempty; apply keys_distinct_empty).
  clear Hempty. revert w0 Hkeys.
  induction actions as [|a actions IH]; intros w0 Hkeys; [done|].
  simpl. by apply IH, perform_keys_distinct.
Qed.

End UrlCache.

(** C6, as the code has it.  In every state the page can reach and for
    every argument, [getImageUrl] returns normally (it never rejects), and:
    inline data is returned unchanged, the state being untouched; an
    identifier whose blob is absent yields the empty string, the
    'unavailable' result, and leaves the cache alone; an identifier whose
    blob is present yields an object URL, provided the mapping is cached
    already or the IndexedDB request is answered, and then the mapping is in
    the cache and a second call returns the same URL without touching
    anything; when the mapping is not cached and the IndexedDB request
    fails, the result is the empty string as well. *)
Theorem getImageUrl_resolve (E : Env) (w : World) (imageId : string) :
  reachable E w →
  let n := db_requests w in
  (∃ result w', getImageUrl E imageId w = (Ok result, w')) ∧
  (startsWith imageId "data:image" = true →
     getImageUrl E imageId w = (Ok imageId, w)) ∧
  (startsWith imageId "data:image" = false →
   images w !! imageId = None →
     ∃ w', getImageUrl E imageId w = (Ok "", w') ∧
           imageUrlCache w' = imageUrlCache w) ∧
  (startsWith imageId "data:image" = false →
   is_Some (images w !! imageId) →
   is_Some (imageUrlCache w !! imageId) ∨
     (db_opens E n = true ∧ request_ok E n = true) →
     ∃ url w', getImageUrl E imageId w = (Ok url, w') ∧
               (∃ token, url = "blob:" +:+ token) ∧
               imageUrlCache w' !! imageId = Some url ∧
               ∀ E', getImageUrl E' imageId w' = (Ok url, w')) ∧
  (startsWith imageId "data:image" = false →
   imageUrlCache w !! imageId = None →
   db_opens E n = false ∨ request_ok E n = false →
     ∃ w', getImageUrl E imageId w = (Ok "", w') ∧
           imageUrlCache w' = imageUrlCache w).
Proof.
  intros Hsound%reachable_sound n. subst n.
  split; [apply getImageUrl_total|].
  split; [|split; [|split]].
  - intros Hs. destruct (imageUrlCache w !! imageId) as [url|] eqn:Hc.
    + destruct (Hsound _ _ Hc) as (Hs' & _). congruence.
    + by apply getImageUrl_inline.
  - intros Hs Habsent.
    destruct (imageUrlCache w !! imageId) as [url|] eqn:Hc.
    { destruct (Hsound _ _ Hc) as (_ & [blob Hblob] & _). congruence. }
    destruct (getImageBlob_run E imageId w)
      as [(blob & w1 & _ & Hblob & _)|(e & w1 & Hget & _ & _ & Hc1)];
      [congruence|].
    eexists. split; [by eapply getImageUrl_unavailable|done].
  - intros Hs [blob Hblob] Hanswer.
    destruct (imageUrlCache w !! imageId) as [url|] eqn:Hc.
    + exists url, w. destruct (Hsound _ _ Hc) as (_ & _ & Hurl).
      split; [by apply getImageUrl_cached|]. split; [done|].
      split; [done|]. intros E'. by apply getImageUrl_cached.
    + destruct Hanswer as [[url Hurl]|[Hopen Hreq]]; [done|].
      destruct (getImageBlob_run E imageId w)
        as [(blob' & w1 & Hget & _)|(e & w1 & _ & Hwhy & _)].
      * eexists _, _. split; [by eapply getImageUrl_fresh|].
        split; [eauto|]. simpl. rewrite JsMap_lookup_insert_eq.
        split; [done|]. intros E'. apply getImageUrl_cached.
        simpl. by rewrite JsMap_lookup_insert_eq.
      * destruct Hwhy as [?|[?|?]]; congruence.
  - intros Hs Hc Hfail.
    destruct (getImageBlob_run E imageId w)
      as [(blob & w1 & _ & _ & Hopen & Hreq & _)|(e & w1 & Hget & _ & _ & Hc1)].
    + destruct Hfail; congruence.
    + eexists. split; [by eapply getImageUrl_unavailable|done].
Qed.

Lemma getImageUrl_resolve_witness :
  let w := foldl (perform reliable) (fresh_page []) [ActSaveImage "ABC"] in
  getImageUrl reliable abc_png w = (Ok abc_png, w) ∧
  fst (getImageUrl reliable "img_missing" w) = Ok "" ∧
  ∃ url w',
    getImageUrl reliable "img_1700000000000_r4nd0m0" w = (Ok url, w') ∧
    imageUrlCache w' !! "img_1700000000000_r4nd0m0" = Some url ∧
    getImageUrl offline "img_1700000000000_r4nd0m0" w' = (Ok url, w').
Proof.
  set (w := foldl (perform reliable) (fresh_page []) [ActSaveImage "ABC"]).
  assert (Hreach : reachable reliable w).
  { exists (fresh_page []), [ActSaveImage "ABC"]. split; reflexivity. }
  destruct (getImageUrl_resolve reliable w abc_png Hreach)
    as (_ & Hinline & _).
  destruct (getImageUrl_resolve reliable w "img_missing" Hreach)
    as (_ & _ & Habsent & _).
  destruct (getImageUrl_resolve reliable w "img_1700000000000_r4nd0m0" Hreach)
    as (_ & _ & _ & Hpresent & _).
  split; [apply Hinline; reflexivity|].
  split.
  - destruct Habsent as (w' & Hrun & _);
      [reflexivity|vm_compute; reflexivity|]. by rewrite Hrun.
  - destruct Hpresent as (url & w' & Hrun & _ & Hcached & Hagain);
      [reflexivity|vm_compute; eauto|right; split; reflexivity|].
    exists url, w'. split; [exact Hrun|]. split; [exact Hcached|].
    apply Hagain.
Defined.

(** The claim C6 as the spec words it fails when the blob is present but
    the IndexedDB request of the lookup fails: the upload below is request
    0 and succeeds, the lookup is request 1 and does not, and the caller
    gets the empty string although the blob is in the store. *)
Lemma getImageUrl_present_counterexample :
  let w := foldl (perform flaky) (fresh_page []) [ActSaveImage "ABC"] in
  reachable flaky w ∧
  images w !! "img_1700000000000_r4nd0m0" = Some "ABC" ∧
  startsWith "img_1700000000000_r4nd0m0" "data:image" = false ∧
  fst (getImageUrl flaky "img_1700000000000_r4nd0m0" w) = Ok "" ∧
  imageUrlCache (snd (getImageUrl flaky "img_1700000000000_r4nd0m0" w)) = ∅.
Proof.
  split.
  { exists (fresh_page []), [ActSaveImage "ABC"]. split; reflexivity. }
  repeat split; vm_compute; reflexivity.
Qed.

(* ================================================================== *)
(** * More about the DataService *)

(** X1.  [init] never overwrites: whatever is stored under the posts,
    comments and likes keys, and under the users key when it is present, is
    read back unchanged, and the session pointer is kept.  After [init] no
    collection key is missing, so a second [init], at whatever time, changes
    nothing. *)
Theorem init_keeps_existing_data (c c' : Clock) (ls : LocalStorage) :
  let ls' := DataService.init c ls in
  DataService.getPosts ls' = DataService.getPosts ls ∧
  DataService.getComments None ls' = DataService.getComments None ls ∧
  DataService.getLikes None ls' = DataService.getLikes None ls ∧
  DataService.getCurrentUser ls' = DataService.getCurrentUser ls ∧
  (∀ users, architecture_log_users ls = Some users →
            DataService.getUsers ls' = users) ∧
  (architecture_log_users ls = None →
     DataService.getUsers ls' = [DataService.defaultUser c]) ∧
  missing (architecture_log_users ls') = false ∧
  missing (architecture_log_posts ls') = false ∧
  missing (architecture_log_comments ls') = false ∧
  missing (architecture_log_likes ls') = false ∧
  DataService.init c' ls' = ls'.
Proof.
  destruct ls as [[users|] [posts|] [comments|] [likes|] session];
    simpl; repeat split; try done; by intros ? [= ->].
Qed.

(** X2.  [saveComment] always appends: the comment becomes the last one of
    the collection, whatever its identifier and whether or not its post
    exists, and the earlier comments keep their place.  For a non-empty post
    identifier [p], the comments of [p] gain the new comment exactly when it
    refers to [p].  The other collections are not touched. *)
Theorem saveComment_appends (comment : Comment) (ls : LocalStorage) :
  let ls' := DataService.saveComment comment ls in
  DataService.getComments None ls' =
    DataService.getComments None ls ++ [comment] ∧
  (∀ p, p ≠ "" →
     DataService.getComments (Some p) ls' =
       DataService.getComments (Some p) ls ++
       (if decide (comment_postId comment = p) then [comment] else [])) ∧
  DataService.getUsers ls' = DataService.getUsers ls ∧
  DataService.getPosts ls' = DataService.getPosts ls ∧
  DataService.getLikes None ls' = DataService.getLikes None ls ∧
  DataService.getCurrentUser ls' = DataService.getCurrentUser ls.
Proof.
  simpl. split; [done|]. split; [|done].
  intros p Hp. unfold DataService.getComments, DataService.saveComment.
  simpl. unfold truthy_string. rewrite decide_False by done.
  by rewrite filter_app.
Qed.

Section UpsertFacts.

Context {A : Type} (key : A → string).

Lemma upsert_find_same (rec : A) (arr : list A) :
  find (λ x, key x = key rec) (upsert key rec arr) = Some rec.
Proof.
  unfold upsert, find.
  destruct (findIndex (λ x, key x = key rec) arr) as [i|] eqn:Hfind.
  - apply findIndex_Some in Hfind as (x & Hx & Hkx & Hfirst).
    assert (list_find (λ x, key x = key rec) (<[i:=rec]> arr)
            = Some (i, rec)) as ->; [|done].
    apply list_find_Some. split; [|split; [done|]].
    + apply list_lookup_insert_eq. by eapply lookup_lt_Some.
    + intros j y Hj Hlt. rewrite list_lookup_insert_ne in Hj by lia.
      by eapply Hfirst.
  - apply findIndex_None in Hfind.
    rewrite list_find_app_r by (by apply list_find_None).
    simpl. by rewrite decide_True.
Qed.

Lemma upsert_find_other (rec : A) (arr : list A) (k : string) :
  k ≠ key rec →
  find (λ x, key x = k) (upsert key rec arr) = find (λ x, key x = k) arr.
Proof.
  intros Hk. unfold upsert, find.
  destruct (findIndex (λ x, key x = key rec) arr) as [i|] eqn:Hfind.
  - apply findIndex_Some in Hfind as (x & Hx & Hkx & _).
    destruct (list_find (λ x, key x = k) arr) as [[j y]|] eqn:Hold.
    + apply list_find_Some in Hold as (Hj & Hky & Hfirst).
      assert (i ≠ j) by (intros ->; congruence).
      assert (list_find (λ x, key x = k) (<[i:=rec]> arr) = Some (j, y))
        as ->; [|done].
      apply list_find_Some. split; [|split; [done|]].
      * by rewrite list_lookup_insert_ne.
      * intros j' y' Hj' Hlt. destruct (decide (i = j')) as [<-|].
        -- rewrite list_lookup_insert_eq in Hj'
             by (by eapply lookup_lt_Some).
           injection Hj' as <-. congruence.
        -- rewrite list_lookup_insert_ne in Hj' by done. by eapply Hfirst.
    + apply list_find_None in Hold.
      assert (list_find (λ x, key x = k) (<[i:=rec]> arr) = None)
        as ->; [|done].
      apply list_find_None, Forall_insert; [done|congruence].
  - destruct (list_find (λ x, key x = k) arr) as [[j y]|] eqn:Hold.
    + by rewrite (list_find_app_l _ _ _ _ _ Hold).
    + rewrite list_find_app_r by done. simpl.
      by rewrite decide_False by congruence.
Qed.

Lemma upsert_NoDup (rec : A) (arr : list A) :
  NoDup (key <$> arr) → NoDup (key <$> upsert key rec arr).
Proof.
  intros Hnd. unfold upsert.
  destruct (findIndex (λ x, key x = key rec) arr) as [i|] eqn:Hfind.
  - apply findIndex_Some in Hfind as (x & Hx & Hkx & _).
    rewrite list_fmap_insert, <- Hkx, list_insert_id; [done|].
    by rewrite list_lookup_fmap, Hx.
  - apply findIndex_None in Hfind. rewrite fmap_app.
    apply NoDup_app. split; [done|]. split; [|apply NoDup_singleton].
    intros k (y & -> & Hy)%list_elem_of_fmap Hin.
    apply list_elem_of_singleton in Hin.
    rewrite Forall_forall in Hfind. by apply (Hfind y).
Qed.

Lemma upsert_length (rec : A) (arr : list A) :
  length (upsert key rec arr) =
  if decide (key rec ∈ key <$> arr) then length arr else S (length arr).
Proof.
  unfold upsert.
  destruct (findIndex (λ x, key x = key rec) arr) as [i|] eqn:Hfind.
  - apply findIndex_Some in Hfind as (x & Hx & Hkx & _).
    rewrite decide_True, length_insert; [done|].
    rewrite <- Hkx. apply list_elem_of_fmap_2. by eapply list_elem_of_lookup_2.
  - apply findIndex_None in Hfind. rewrite decide_False.
    + rewrite length_app. simpl. lia.
    + intros (y & Hk & Hy)%list_elem_of_fmap.
      rewrite Forall_forall in Hfind. by apply (Hfind y).
Qed.

Lemma upsert_fresh (rec : A) (arr : list A) :
  key rec ∉ key <$> arr → upsert key rec arr = arr ++ [rec].
Proof.
  intros Hfresh. unfold upsert.
  destruct (findIndex (λ x, key x = key rec) arr) as [i|] eqn:Hfind; [|done].
  apply findIndex_Some in Hfind as (x & Hx & Hkx & _).
  destruct Hfresh. rewrite <- Hkx.
  apply list_elem_of_fmap_2. by eapply list_elem_of_lookup_2.
Qed.

Lemma upsert_keys (rec : A) (arr : list A) (k : string) :
  k ∈ key <$> upsert key rec arr ↔ k = key rec ∨ k ∈ key <$> arr.
Proof.
  unfold upsert.
  destruct (findIndex (λ x, key x = key rec) arr) as [i|] eqn:Hfind.
  - apply findIndex_Some in Hfind as (x & Hx & Hkx & _).
    rewrite list_fmap_insert, <- Hkx, list_insert_id
      by (by rewrite list_lookup_fmap, Hx).
    split; [by right|]. intros [->|]; [|done].
    apply list_elem_of_fmap_2. by eapply list_elem_of_lookup_2.
  - rewrite fmap_app, elem_of_app. simpl.
    rewrite list_elem_of_singleton. tauto.
Qed.

End UpsertFacts.

(** X3.  What [savePost] and [saveUser] store can be looked up again: the
    first record found under the saved identifier is the saved record itself,
    and the lookup of any other identifier gives what it gave before. *)
Theorem save_then_find (user : User) (post : Post) (ls : LocalStorage) :
  findPost (post_id post) (DataService.savePost post ls) = Some post ∧
  (∀ q, q ≠ post_id post →
        findPost q (DataService.savePost post ls) = findPost q ls) ∧
  find (λ u, user_id u = user_id user)
    (DataService.getUsers (DataService.saveUser user ls)) = Some user ∧
  (∀ q, q ≠ user_id user →
        find (λ u, user_id u = q)
          (DataService.getUsers (DataService.saveUser user ls)) =
        find (λ u, user_id u = q) (DataService.getUsers ls)).
Proof.
  unfold findPost, DataService.savePost, DataService.saveUser,
    DataService.getPosts, DataService.getUsers. simpl.
  split; [apply upsert_find_same|].
  split; [intros q Hq; by apply upsert_find_other|].
  split; [apply (upsert_find_same user_id)|].
  intros q Hq. by apply (upsert_find_other user_id).
Qed.

(** X4.  Collections whose identifiers are pairwise distinct stay so under
    [saveUser] and [savePost], from any state and not only from the empty
    one; a save under a known identifier keeps the size of the collection,
    a save under a new identifier adds the record at the end. *)
Theorem save_keeps_ids_unique (user : User) (post : Post) (ls : LocalStorage) :
  NoDup (user_id <$> DataService.getUsers ls) →
  NoDup (post_id <$> DataService.getPosts ls) →
  let users := DataService.getUsers ls in
  let posts := DataService.getPosts ls in
  let users' := DataService.getUsers (DataService.saveUser user ls) in
  let posts' := DataService.getPosts (DataService.savePost post ls) in
  NoDup (user_id <$> users') ∧
  NoDup (post_id <$> posts') ∧
  (user_id user ∈ user_id <$> users → length users' = length users) ∧
  (post_id post ∈ post_id <$> posts → length posts' = length posts) ∧
  (user_id user ∉ user_id <$> users → users' = users ++ [user]) ∧
  (post_id post ∉ post_id <$> posts → posts' = posts ++ [post]) ∧
  (∀ i, i ∈ user_id <$> users' ↔ i = user_id user ∨ i ∈ user_id <$> users) ∧
  (∀ i, i ∈ post_id <$> posts' ↔ i = post_id post ∨ i ∈ post_id <$> posts).
Proof.
  intros Hu Hp. cbv zeta.
  unfold DataService.savePost, DataService.saveUser,
    DataService.getPosts, DataService.getUsers in *. simpl.
  split; [by apply upsert_NoDup|]. split; [by apply upsert_NoDup|].
  split; [intros Hin; by rewrite upsert_length, decide_True|].
  split; [intros Hin; by rewrite upsert_length, decide_True|].
  split; [apply upsert_fresh|]. split; [apply upsert_fresh|].
  split; intros i; apply upsert_keys.
Qed.

Lemma save_keeps_ids_unique_witness :
  let ls := set_users [alice; bob] (set_posts [gallery_post] empty_storage) in
  NoDup (user_id <$>
           DataService.getUsers (DataService.saveUser alice_with_bio ls)) ∧
  NoDup (post_id <$>
           DataService.getPosts (DataService.savePost legacy_post ls)).
Proof.
  set (ls := set_users [alice; bob] (set_posts [gallery_post] empty_storage)).
  assert (Hu : NoDup (user_id <$> DataService.getUsers ls)).
  { apply (bool_decide_unpack _). vm_compute. exact I. }
  assert (Hp : NoDup (post_id <$> DataService.getPosts ls)).
  { apply (bool_decide_unpack _). vm_compute. exact I. }
  destruct (save_keeps_ids_unique alice_with_bio legacy_post ls Hu Hp)
    as (Hu' & Hp' & _).
  split; [exact Hu'|exact Hp'].
Defined.

(** X5.  [deletePost] is idempotent and deletions commute: deleting the
    same post twice is deleting it once, and two posts can be deleted in
    either order, localStorage ending in the very same state. *)
Theorem deletePost_idempotent_commutes (a b : string) (ls : LocalStorage) :
  DataService.deletePost a (DataService.deletePost a ls) =
    DataService.deletePost a ls ∧
  DataService.deletePost a (DataService.deletePost b ls) =
    DataService.deletePost b (DataService.deletePost a ls).
Proof.
  unfold DataService.deletePost, DataService.getPosts,
    DataService.getComments, DataService.getLikes,
    set_posts, set_comments, set_likes. simpl.
  split; f_equal; f_equal;
    rewrite !list_filter_filter; apply list_filter_iff; tauto.
Qed.

Lemma filter_all {A} (P : A → Prop) `{∀ x, Decision (P x)} (l : list A) :
  Forall P l → filter P l = l.
Proof.
  induction 1 as [|x l Hx _ IH]; [done|].
  by rewrite filter_cons_True, IH.
Qed.

Lemma find_filter {A} (P Q : A → Prop) `{∀ x, Decision (P x)}
    `{∀ x, Decision (Q x)} (l : list A) :
  (∀ x, P x → Q x) → find P (filter Q l) = find P l.
Proof.
  intros HPQ. unfold find. induction l as [|x l IH]; [done|].
  destruct (decide (Q x)) as [Hq|Hq].
  - rewrite filter_cons_True by done. simpl.
    destruct (decide (P x)); [done|].
    destruct (list_find P (filter Q l)) as [[]|],
      (list_find P l) as [[]|]; simpl in *; congruence.
  - rewrite filter_cons_False by done. simpl.
    rewrite decide_False by (intros Hp; by apply Hq, HPQ).
    destruct (list_find P (filter Q l)) as [[]|],
      (list_find P l) as [[]|]; simpl in *; congruence.
Qed.

Lemma find_filter_out {A} (P Q : A → Prop) `{∀ x, Decision (P x)}
    `{∀ x, Decision (Q x)} (l : list A) :
  (∀ x, P x → ¬ Q x) → find P (filter Q l) = None.
Proof.
  intros HPQ. unfold find.
  assert (list_find P (filter Q l) = None) as ->; [|done].
  apply list_find_None, Forall_forall.
  intros x [Hq _]%list_elem_of_filter Hp. by apply (HPQ x).
Qed.

(** X6.  After [deletePost(id)] with a non-empty [id], nothing refers to
    the post any more: it cannot be looked up, its comments and its likes
    are empty and nobody likes it.  What is asked about any other non-empty
    post identifier gets the answer it got before. *)
Theorem deletePost_leaves_no_reference (postId : string) (ls : LocalStorage) :
  postId ≠ "" →
  let ls' := DataService.deletePost postId ls in
  findPost postId ls' = None ∧
  DataService.getComments (Some postId) ls' = [] ∧
  DataService.getLikes (Some postId) ls' = [] ∧
  (∀ u, DataService.isLiked postId u ls' = false) ∧
  (∀ q, q ≠ "" → q ≠ postId →
     findPost q ls' = findPost q ls ∧
     DataService.getComments (Some q) ls' = DataService.getComments (Some q) ls ∧
     DataService.getLikes (Some q) ls' = DataService.getLikes (Some q) ls ∧
     ∀ u, DataService.isLiked q u ls' = DataService.isLiked q u ls).
Proof.
  intros Hp. cbv zeta.
  assert (Hc : DataService.getComments (Some postId)
                 (DataService.deletePost postId ls) = []).
  { unfold DataService.getComments, DataService.deletePost, truthy_string.
    simpl. rewrite decide_False by done.
    apply filter_none, Forall_forall.
    by intros c [? _]%list_elem_of_filter. }
  assert (Hl : DataService.getLikes (Some postId)
                 (DataService.deletePost postId ls) = []).
  { unfold DataService.getLikes, DataService.deletePost, truthy_string.
    simpl. rewrite decide_False by done.
    apply filter_none, Forall_forall.
    by intros c [? _]%list_elem_of_filter. }
  split.
  { unfold findPost, DataService.deletePost, DataService.getPosts. simpl.
    apply find_filter_out. intros x Hx Hne. by apply Hne. }
  split; [done|]. split; [done|].
  split; [intros u; unfold DataService.isLiked; by rewrite Hl|].
  intros q Hq Hne.
  assert (Hl' : DataService.getLikes (Some q)
                  (DataService.deletePost postId ls) =
                DataService.getLikes (Some q) ls).
  { unfold DataService.getLikes, DataService.deletePost, truthy_string.
    simpl. rewrite decide_False by done.
    apply list_filter_filter_l. congruence. }
  split.
  { unfold findPost, DataService.deletePost, DataService.getPosts. simpl.
    apply find_filter. congruence. }
  split; [|split; [done|]].
  - unfold DataService.getComments, DataService.deletePost, truthy_string.
    simpl. rewrite decide_False by done.
    apply list_filter_filter_l. congruence.
  - intros u. unfold DataService.isLiked. by rewrite Hl'.
Qed.

Lemma deletePost_leaves_no_reference_witness :
  let ls :=
    set_likes [like_1A; like_2B]
      (set_posts [gallery_post; legacy_post] empty_storage) in
  DataService.isLiked "post_1" "user_A" ls = true ∧
  DataService.isLiked "post_1" "user_A"
    (DataService.deletePost "post_1" ls) = false ∧
  DataService.isLiked "post_2" "user_B"
    (DataService.deletePost "post_1" ls) = true.
Proof.
  set (ls := set_likes [like_1A; like_2B]
               (set_posts [gallery_post; legacy_post] empty_storage)).
  assert (Hp : "post_1" ≠ "") by discriminate.
  destruct (deletePost_leaves_no_reference "post_1" ls Hp)
    as (_ & _ & _ & Hgone & Hother).
  split; [reflexivity|]. split; [apply Hgone|].
  destruct (Hother "post_2") as (_ & _ & _ & Hliked);
    [discriminate|discriminate|].
  rewrite Hliked. reflexivity.
Defined.

(** X7.  Saving a post under an identifier that is not yet in use and then
    deleting it gives back the post collection as it was; the comments and
    the likes are given back too unless one of them already referred to
    that identifier. *)
Theorem savePost_deletePost_roundtrip (post : Post) (ls : LocalStorage) :
  post_id post ∉ post_id <$> DataService.getPosts ls →
  let ls' := DataService.deletePost (post_id post)
               (DataService.savePost post ls) in
  DataService.getPosts ls' = DataService.getPosts ls ∧
  (Forall (λ c, comment_postId c ≠ post_id post)
     (DataService.getComments None ls) →
   DataService.getComments None ls' = DataService.getComments None ls) ∧
  (Forall (λ l, like_postId l ≠ post_id post)
     (DataService.getLikes None ls) →
   DataService.getLikes None ls' = DataService.getLikes None ls) ∧
  DataService.getUsers ls' = DataService.getUsers ls ∧
  DataService.getCurrentUser ls' = DataService.getCurrentUser ls.
Proof.
  intros Hfresh. cbv zeta.
  unfold DataService.deletePost, DataService.savePost, DataService.getPosts,
    DataService.getComments, DataService.getLikes in *. simpl.
  split; [|split; [apply filter_all|split; [apply filter_all|done]]].
  rewrite upsert_fresh by done. rewrite filter_app.
  rewrite filter_cons_False by (by intros []). rewrite filter_nil, app_nil_r.
  apply filter_all, Forall_forall. intros x Hx Heq. apply Hfresh.
  rewrite <- Heq. by apply list_elem_of_fmap_2.
Qed.

Lemma savePost_deletePost_roundtrip_witness :
  DataService.getPosts
    (DataService.deletePost "post_2"
       (DataService.savePost legacy_post
          (set_posts [gallery_post] empty_storage))) = [gallery_post].
Proof.
  apply (savePost_deletePost_roundtrip legacy_post
           (set_posts [gallery_post] empty_storage)).
  intros Hin. apply list_elem_of_singleton in Hin. discriminate.
Defined.

(** X8.  [toggleLike(p,u)] concerns the pair [(p,u)] only: for any other
    pair with a non-empty post identifier [isLiked] answers as before.  The
    collection shrinks by one Like when the pair was liked and grows by one
    otherwise, and users, posts, comments and the session pointer are not
    touched. *)
Theorem toggleLike_other_pairs (c : Clock) (p u q v : string)
    (ls : LocalStorage) :
  q ≠ "" →
  (q, v) ≠ (p, u) →
  let ls' := DataService.toggleLike c p u ls in
  let likes := DataService.getLikes None ls in
  let likes' := DataService.getLikes None ls' in
  DataService.isLiked q v ls' = DataService.isLiked q v ls ∧
  (Exists (like_matches p u) likes → S (length likes') = length likes) ∧
  (¬ Exists (like_matches p u) likes → length likes' = S (length likes)) ∧
  DataService.getUsers ls' = DataService.getUsers ls ∧
  DataService.getPosts ls' = DataService.getPosts ls ∧
  DataService.getComments None ls' = DataService.getComments None ls ∧
  DataService.getCurrentUser ls' = DataService.getCurrentUser ls.
Proof.
  intros Hq Hne. cbv zeta.
  assert (Hother : ∀ x, like_matches p u x → ¬ like_matches q v x).
  { intros x [Hp Hu] [Hq' Hv]. apply Hne. congruence. }
  split; [|split; [|split; [|done]]].
  - apply eq_true_iff_eq. rewrite !isLiked_true by done.
    rewrite getLikes_toggleLike. cbv zeta.
    destruct (findIndex _ (DataService.getLikes None ls)) as [i|] eqn:Hfind.
    + apply findIndex_split in Hfind as (l1 & x & l2 & -> & _ & Hx & ->).
      rewrite !Exists_app, Exists_cons. specialize (Hother x Hx). tauto.
    + rewrite Exists_app, Exists_cons, Exists_nil.
      assert (¬ like_matches q v (mkLike p u (now_iso c)))
        by (by apply Hother). tauto.
  - intros Hex. rewrite getLikes_toggleLike. cbv zeta.
    destruct (findIndex _ (DataService.getLikes None ls)) as [i|] eqn:Hfind.
    + apply findIndex_split in Hfind as (l1 & x & l2 & -> & _ & _ & ->).
      rewrite !length_app. simpl. lia.
    + apply findIndex_None in Hfind. by apply Forall_Exists_neg in Hfind.
  - intros Hno. rewrite getLikes_toggleLike. cbv zeta.
    rewrite findIndex_no_match by (by apply Forall_Exists_neg).
    rewrite length_app. simpl. lia.
Qed.

Lemma toggleLike_other_pairs_witness :
  let ls := set_likes [like_1A; like_2B] empty_storage in
  DataService.isLiked "post_2" "user_B"
    (DataService.toggleLike later "post_1" "user_A" ls) = true ∧
  DataService.isLiked "post_1" "user_B"
    (DataService.toggleLike later "post_1" "user_A" ls) = false.
Proof.
  set (ls := set_likes [like_1A; like_2B] empty_storage).
  destruct (toggleLike_other_pairs later "post_1" "user_A"
              "post_2" "user_B" ls) as (H1 & _); [discriminate..|].
  destruct (toggleLike_other_pairs later "post_1" "user_A"
              "post_1" "user_B" ls) as (H2 & _); [discriminate..|].
  split; [rewrite H1|rewrite H2]; reflexivity.
Defined.

(** X9.  The profile listing [getUserPosts(u)] holds, in the order of the
    post collection, exactly the posts owned by [u].  A post saved under a
    new identifier shows up at the end of its owner's listing and of nobody
    else's; [deletePost] removes the post from the listing and keeps the
    rest. *)
Theorem getUserPosts_follows_saves (u postId : string) (post : Post)
    (ls : LocalStorage) :
  post_id post ∉ post_id <$> DataService.getPosts ls →
  DataService.getUserPosts u (DataService.savePost post ls) =
    DataService.getUserPosts u ls ++
    (if decide (post_userId post = u) then [post] else []) ∧
  DataService.getUserPosts u (DataService.deletePost postId ls) =
    filter (λ p, post_id p ≠ postId) (DataService.getUserPosts u ls) ∧
  (∀ p, p ∈ DataService.getUserPosts u ls ↔
        p ∈ DataService.getPosts ls ∧ post_userId p = u) ∧
  DataService.getUserPosts u ls `sublist_of` DataService.getPosts ls.
Proof.
  intros Hfresh.
  unfold DataService.getUserPosts, DataService.savePost,
    DataService.deletePost, DataService.getPosts in *. simpl.
  split; [|split; [|split]].
  - rewrite upsert_fresh by done. by rewrite filter_app.
  - rewrite !list_filter_filter. apply list_filter_iff. tauto.
  - intros p. rewrite list_elem_of_filter. tauto.
  - apply sublist_filter.
Qed.

Lemma getUserPosts_follows_saves_witness :
  DataService.getUserPosts "user_1"
    (DataService.savePost legacy_post
       (set_posts [gallery_post] empty_storage)) =
  [gallery_post; legacy_post].
Proof.
  destruct (getUserPosts_follows_saves "user_1" "post_1" legacy_post
              (set_posts [gallery_post] empty_storage)) as (Hsave & _).
  - intros Hin. apply list_elem_of_singleton in Hin. discriminate.
  - rewrite Hsave. reflexivity.
Defined.

(* ================================================================== *)
(** * More about the image store *)

(** X10.  A blob that [saveImageBlob] accepted can be read back: when the
    next IndexedDB request is answered, [getImageBlob] on the returned
    identifier resolves with the very file that was saved.  The identifier
    is a generated [img_] one, the save costs one request, and it changes no
    other entry of the store, nor localStorage, nor the URL cache. *)
Theorem saveImageBlob_then_getImageBlob (E : Env) (file : Blob)
    (w w1 : World) (imageId : string) :
  saveImageBlob E file w = (Ok imageId, w1) →
  db_opens E (db_requests w1) = true →
  request_ok E (db_requests w1) = true →
  (∃ w2, getImageBlob E imageId w1 = (Ok file, w2) ∧ images w2 = images w1) ∧
  imageId = "img_" +:+ id_stamp E (db_requests w) ∧
  db_requests w1 = S (db_requests w) ∧
  (∀ k, k ≠ imageId → images w1 !! k = images w !! k) ∧
  storage w1 = storage w ∧
  imageUrlCache w1 = imageUrlCache w.
Proof.
  intros Hsave Hopen Hreq.
  destruct (saveImageBlob_run E file w)
    as [(w' & Hrun & Hg & _ & Hn & Hi)|(e & w' & Hrun & _)];
    rewrite Hrun in Hsave; [|done].
  injection Hsave as <- <-.
  destruct Hg as (Hst & Hc & _).
  split; [|split; [done|split; [done|split; [|done]]]].
  - destruct (getImageBlob_run E ("img_" +:+ id_stamp E (db_requests w)) w')
      as [(blob & w2 & Hget & Hblob & _ & _ & Hi2 & _)
         |(e & w2 & _ & [Hnone|[?|?]] & _)]; try congruence.
    + rewrite Hi, lookup_insert_eq in Hblob. injection Hblob as <-.
      by exists w2.
    + by rewrite Hi, lookup_insert_eq in Hnone.
  - intros k Hk. by rewrite Hi, lookup_insert_ne.
Qed.

Lemma saveImageBlob_then_getImageBlob_witness :
  fst (getImageBlob reliable "img_1700000000000_r4nd0m0"
         (snd (saveImageBlob reliable "ABC" (fresh_page [])))) = Ok "ABC".
Proof.
  destruct (saveImageBlob_then_getImageBlob reliable "ABC" (fresh_page [])
              (snd (saveImageBlob reliable "ABC" (fresh_page [])))
              "img_1700000000000_r4nd0m0")
    as ((w2 & Hget & _) & _); [vm_compute; reflexivity..|].
  rewrite Hget. reflexivity.
Defined.

(** X11.  [deleteAllImages] is all or nothing.  When its IndexedDB request
    is answered it empties the store, after which every [getImageBlob]
    rejects; when the request fails it rejects, warns and leaves every blob
    in place.  Either way it touches neither localStorage nor the URL cache:
    cached URLs survive a bare [deleteAllImages]. *)
Theorem deleteAllImages_all_or_nothing (E : Env) (w : World) :
  let n := db_requests w in
  let w' := snd (deleteAllImages E w) in
  (db_opens E n = true → request_ok E n = true →
     fst (deleteAllImages E w) = Ok tt ∧ images w' = ∅ ∧
     warnings w' = warnings w ∧
     ∀ E' imageId, ∃ e w'', getImageBlob E' imageId w' = (Throw e, w'')) ∧
  (db_opens E n = false ∨ request_ok E n = false →
     (∃ e, fst (deleteAllImages E w) = Throw e) ∧ images w' = images w ∧
     warnings w < warnings w') ∧
  storage w' = storage w ∧
  imageUrlCache w' = imageUrlCache w ∧
  db_requests w' = S n.
Proof.
  cbv zeta. unfold deleteAllImages, openDB. run.
  destruct (db_opens E (db_requests w)) eqn:Hopen; simpl;
    [destruct (request_ok E (db_requests w)) eqn:Hreq; simpl|].
  - split; [|split; [by intros [|]|done]].
    intros _ _. do 3 (split; [done|]). intros E' imageId.
    match goal with |- context [getImageBlob E' imageId ?w0] =>
      destruct (getImageBlob_run E' imageId w0)
        as [(blob & w2 & _ & Hblob & _)|(e & w2 & Hget & _)] end.
    + simpl in Hblob. by rewrite lookup_empty in Hblob.
    + eauto.
  - split; [done|]. split; [|done].
    intros _. split; [eauto|]. split; [done|]. unfold warnings. simpl. lia.
  - split; [done|]. split; [|done].
    intros _. split; [eauto|]. split; [done|]. unfold warnings. simpl. lia.
Qed.

(** X12.  [handleClearImages] does nothing when the dialog is declined and
    never rejects.  When the user confirms and the store can be cleared, the
    store and the cache end empty, every URL that was cached has been
    revoked, in the order in which the identifiers entered the cache (the
    newest revocation is listed first), and, in every state the page can
    reach, no other URL has, and localStorage, hence every post with its image references, is as before:
    from then on each reference that is not inline data resolves to the
    empty string.  When clearing fails, blobs, cache and revoked URLs are
    as before and a warning is printed. *)
Theorem handleClearImages_outcome (E : Env) (w : World) :
  let n := db_requests w in
  let w' := snd (handleClearImages E true w) in
  handleClearImages E false w = (Ok tt, w) ∧
  fst (handleClearImages E true w) = Ok tt ∧
  storage w' = storage w ∧
  (db_opens E n = true → request_ok E n = true →
     images w' = ∅ ∧ imageUrlCache w' = ∅ ∧
     revoked_urls w' =
       reverse (entries (imageUrlCache w)).*2 ++ revoked_urls w ∧
     (∀ id url, imageUrlCache w !! id = Some url → url ∈ revoked_urls w') ∧
     (keys_distinct (imageUrlCache w) ∨ (∃ E0, reachable E0 w) →
      ∀ url, url ∈ revoked_urls w' ↔
        url ∈ revoked_urls w ∨ ∃ id, imageUrlCache w !! id = Some url) ∧
     ∀ E' imageId, startsWith imageId "data:image" = false →
       fst (getImageUrl E' imageId w') = Ok "") ∧
  (db_opens E n = false ∨ request_ok E n = false →
     images w' = images w ∧ imageUrlCache w' = imageUrlCache w ∧
     revoked_urls w' = revoked_urls w ∧ warnings w < warnings w').
Proof.
  cbv zeta. split; [done|].
  unfold handleClearImages, deleteAllImages, openDB. run.
  destruct (db_opens E (db_requests w)) eqn:Hopen; simpl;
    [destruct (request_ok E (db_requests w)) eqn:Hreq; simpl|].
  - rewrite !revoke_each. simpl.
    do 2 (split; [done|]). split; [|by intros [|]].
    intros _ _. do 3 (split; [done|]). split; [|split].
    { intros id url Hid%JsMap_lookup_entry.
      rewrite elem_of_app, elem_of_reverse. left.
      by apply (list_elem_of_fmap_2 snd _ (id, url)). }
    { intros Hkeys url.
      assert (keys_distinct (imageUrlCache w)) as Hdistinct
        by (destruct Hkeys as [?|[E0 ?]];
            [done|by apply (reachable_keys_distinct E0)]).
      clear Hkeys.
      rewrite elem_of_app, elem_of_reverse, list_elem_of_fmap. split.
      - intros [([id u] & -> & Hin)|Hin]; [|by left].
        right. exists id. by apply JsMap_entry_lookup.
      - intros [Hin|(id & Hid%JsMap_lookup_entry)]; [by right|]. left.
        by exists (id, url). }
    intros E' imageId Hs.
    match goal with |- context [getImageUrl E' imageId ?w0] =>
      destruct (getImageBlob_run E' imageId w0)
        as [(blob & w2 & _ & Hblob & _)|(e & w2 & Hget & _)];
      [simpl in Hblob; by rewrite lookup_empty in Hblob|];
      by rewrite (getImageUrl_unavailable E' imageId w0 w2 e) end.
  - do 2 (split; [done|]). split; [done|].
    intros _. do 3 (split; [done|]). unfold warnings. simpl. lia.
  - do 2 (split; [done|]). split; [done|].
    intros _. do 3 (split; [done|]). unfold warnings. simpl. lia.
Qed.

(** Three images are stored and then resolved second, first, third: the
    clearing revokes their URLs in that order, the order of the cache, not
    in the order of the identifiers. *)
Lemma handleClearImages_outcome_witness :
  let history :=
    [ActSaveImage "A"; ActSaveImage "B"; ActSaveImage "C";
     ActGetImageUrl "img_1700000000000_r4nd0m1";
     ActGetImageUrl "img_1700000000000_r4nd0m0";
     ActGetImageUrl "img_1700000000000_r4nd0m2"] in
  let w := foldl (perform reliable) (fresh_page []) history in
  entries (imageUrlCache w) =
    [("img_1700000000000_r4nd0m1", "blob:site/0");
     ("img_1700000000000_r4nd0m0", "blob:site/1");
     ("img_1700000000000_r4nd0m2", "blob:site/2")] ∧
  revoked_urls (snd (handleClearImages reliable true w)) =
    ["blob:site/2"; "blob:site/1"; "blob:site/0"] ∧
  imageUrlCache (snd (handleClearImages reliable true w)) = ∅.
Proof.
  cbv zeta. split; [vm_compute; reflexivity|].
  match goal with |- context [handleClearImages reliable true ?w0] =>
    destruct (handleClearImages_outcome reliable w0)
      as (_ & _ & _ & Hcleared & _) end.
  destruct Hcleared as (_ & Hcache & Hrevoked & _);
    [vm_compute; reflexivity..|].
  split; [|exact Hcache].
  rewrite Hrevoked. vm_compute. reflexivity.
Defined.

Section Rewriting.

Context (E : Env).

Lemma migrateImage_rewritten (postId : string) (i : nat) (v : jsval)
    (n : nat) (w : World) v' n' w' :
  migrateImage E postId i v n w = (Ok (v', n'), w') →
  entry_rewritten v v'.
Proof.
  intros Hrun. destruct (is_inline v) eqn:Hv.
  - destruct v as [| | |s| |]; try done. simpl in Hv.
    destruct (convert_run E s w)
      as [(blob & w1 & _ & Hc & _)|(e & w1 & Hc & _)].
    + rewrite (migrateImage_success E _ _ _ _ _ _ _ Hv Hc) in Hrun.
      injection Hrun as <- _ _. right. eauto.
    + rewrite (migrateImage_failure E _ _ _ _ _ _ _ Hv Hc) in Hrun.
      injection Hrun as <- _ _. by left.
  - rewrite migrateImage_other in Hrun by done.
    injection Hrun as <- _ _. by left.
Qed.

Lemma migrateImages_rewritten (postId : string) (entries : list jsval) :
  ∀ (i n : nat) (w : World) entries' n' w',
  migrateImages E postId i entries n w = (Ok (entries', n'), w') →
  Forall2 entry_rewritten entries entries'.
Proof.
  induction entries as [|v rest IH]; intros i n w entries' n' w' Hrun.
  - simpl in Hrun. run. injection Hrun as <- _ _. constructor.
  - destruct (migrateImage_run E postId i v n w)
      as (v' & n1 & w1 & Hv & _).
    destruct (migrateImages_run E postId rest (S i) n1 w1)
      as (rest' & n2 & w2 & Hrest & _).
    rewrite (migrateImages_cons E _ _ _ _ _ _ _ _ _ _ _ _ Hv Hrest) in Hrun.
    injection Hrun as <- _ _.
    constructor; [by eapply migrateImage_rewritten|by eapply IH].
Qed.

Lemma migratePost_rewritten (p : Post) (n : nat) (w : World) p' n' w' :
  migratePost E p n w = (Ok (p', n'), w') → post_rewritten p p'.
Proof.
  intros Hrun. unfold post_rewritten.
  destruct (images_array_dec p) as [[entries Hp]|Hno].
  - rewrite Hp.
    destruct (migrateImages_run E (post_id p) entries 0 n w)
      as (entries' & n1 & w1 & Hentries & _).
    rewrite (migratePost_array E _ _ _ _ _ _ _ Hp Hentries) in Hrun.
    injection Hrun as <- _ _. exists entries'.
    split; [done|]. by eapply migrateImages_rewritten.
  - assert (Hgoal : p' = p ∨
      ∃ s stamp, post_image p = Some (JStr s) ∧
                 startsWith s "data:image" = true ∧
                 p' = delete_post_image
                        (set_post_images (JArr [JStr ("img_" +:+ stamp)]) p)).
    { destruct (needs_migration p) eqn:Hneeds.
      - assert (∃ s, post_image p = Some (JStr s) ∧
                     startsWith s "data:image" = true) as (s & Himg & Hs).
        { unfold needs_migration in Hneeds.
          destruct (post_images p) as [[]|]; try (by destruct (Hno items));
            destruct (post_image p) as [[]|]; try done;
            apply andb_true_iff in Hneeds as [_ ?]; eauto. }
        destruct (convert_run E s w)
          as [(blob & w1 & _ & Hc & _)|(e & w1 & Hc & _)].
        + rewrite (migratePost_legacy_success E _ _ _ _ _ _ Hno Himg Hs Hc)
            in Hrun.
          injection Hrun as <- _ _. right. eauto.
        + rewrite (migratePost_legacy_failure E _ _ _ _ _ _ Hno Himg Hs Hc)
            in Hrun.
          injection Hrun as <- _ _. by left.
      - rewrite migratePost_settled in Hrun by done.
        injection Hrun as <- _ _. by left. }
    destruct (post_images p) as [[]|]; try done. by destruct (Hno items).
Qed.

Lemma migratePosts_rewritten (posts : list Post) :
  ∀ (n : nat) (w : World) posts' n' w',
  migratePosts E posts n w = (Ok (posts', n'), w') →
  Forall2 post_rewritten posts posts'.
Proof.
  induction posts as [|p rest IH]; intros n w posts' n' w' Hrun.
  - simpl in Hrun. run. injection Hrun as <- _ _. constructor.
  - destruct (migratePost_run E p n w) as (p' & n1 & w1 & Hp & _).
    destruct (migratePosts_run E rest n1 w1)
      as (rest' & n2 & w2 & Hrest & _).
    rewrite (migratePosts_cons E _ _ _ _ _ _ _ _ _ _ Hp Hrest) in Hrun.
    injection Hrun as <- _ _.
    constructor; [by eapply migratePost_rewritten|by eapply IH].
Qed.

Lemma post_rewritten_meta (p p' : Post) :
  post_rewritten p p' →
  post_id p' = post_id p ∧ post_userId p' = post_userId p ∧
  post_username p' = post_username p ∧
  post_buildingName p' = post_buildingName p ∧
  post_category p' = post_category p ∧
  post_location p' = post_location p ∧ post_date p' = post_date p ∧
  post_note p' = post_note p ∧ post_tags p' = post_tags p ∧
  post_emotionColor p' = post_emotionColor p ∧
  post_likes p' = post_likes p ∧ post_comments p' = post_comments p ∧
  post_createdAt p' = post_createdAt p.
Proof.
  unfold post_rewritten.
  assert (Hkeep : p' = p ∨
    (∃ s stamp, post_image p = Some (JStr s) ∧
                startsWith s "data:image" = true ∧
                p' = delete_post_image
                       (set_post_images (JArr [JStr ("img_" +:+ stamp)]) p)) →
    post_id p' = post_id p ∧ post_userId p' = post_userId p ∧
    post_username p' = post_username p ∧
    post_buildingName p' = post_buildingName p ∧
    post_category p' = post_category p ∧
    post_location p' = post_location p ∧ post_date p' = post_date p ∧
    post_note p' = post_note p ∧ post_tags p' = post_tags p ∧
    post_emotionColor p' = post_emotionColor p ∧
    post_likes p' = post_likes p ∧ post_comments p' = post_comments p ∧
    post_createdAt p' = post_createdAt p).
  { intros [->|(s & stamp & _ & _ & ->)]; by repeat split. }
  destruct (post_images p) as [[| | | |entries|]|]; try exact Hkeep.
  by intros (entries' & -> & _).
Qed.

End Rewriting.

(** X13.  The migration pass only ever rewrites image fields.  Post by
    post, in the same order: a post with an image array keeps every field
    and every entry except that inline entries may become generated [img_]
    identifiers (identifiers already migrated and entries of unknown format
    are never changed); a post without an array is kept as it is or has its
    inline legacy field turned into a one-element array.  So the identifier,
    owner, texts, tags and dates of every post survive.  Users, comments,
    likes and the session pointer are not written, no blob is removed and
    the URL cache is not touched. *)
Theorem migrateOldData_rewrites_images_only (E : Env) (w : World) :
  let posts := DataService.getPosts (storage w) in
  let w' := snd (migrateOldData E w) in
  let posts' := DataService.getPosts (storage w') in
  Forall2 post_rewritten posts posts' ∧
  length posts' = length posts ∧
  post_id <$> posts' = post_id <$> posts ∧
  Forall2 (λ p p',
    post_userId p' = post_userId p ∧ post_username p' = post_username p ∧
    post_buildingName p' = post_buildingName p ∧
    post_category p' = post_category p ∧
    post_location p' = post_location p ∧ post_date p' = post_date p ∧
    post_note p' = post_note p ∧ post_tags p' = post_tags p ∧
    post_emotionColor p' = post_emotionColor p ∧
    post_likes p' = post_likes p ∧ post_comments p' = post_comments p ∧
    post_createdAt p' = post_createdAt p) posts posts' ∧
  architecture_log_users (storage w') = architecture_log_users (storage w) ∧
  architecture_log_comments (storage w')
    = architecture_log_comments (storage w) ∧
  architecture_log_likes (storage w') = architecture_log_likes (storage w) ∧
  current_user (storage w') = current_user (storage w) ∧
  (∀ k, is_Some (images w !! k) → is_Some (images w' !! k)) ∧
  imageUrlCache w' = imageUrlCache w.
Proof.
  cbv zeta.
  destruct (migratePosts_run E (DataService.getPosts (storage w)) 0 w)
    as (posts' & n' & w1 & Hrun & Hg & _).
  destruct (migrateOldData_posts E w _ _ _ Hrun) as [_ Hstored].
  pose proof (migratePosts_rewritten E _ _ _ _ _ _ Hrun) as Hrw.
  destruct (migrateOldData_run E w)
    as (? & ? & ? & _ & _ & _ & Hcache & Himages & _).
  rewrite Hstored.
  split; [done|]. split; [symmetry; by eapply Forall2_length|].
  split.
  { clear -Hrw. induction Hrw as [|p p' ps ps' Hp _ IH]; [done|].
    simpl. f_equal; [by apply post_rewritten_meta in Hp as (? & _)|done]. }
  split.
  { eapply Forall2_impl; [done|]. intros p p' Hp.
    apply post_rewritten_meta in Hp. tauto. }
  rewrite (migrateOldData_unfold E w posts' n' w1 Hrun) in Hcache, Himages |- *.
  destruct Hg as (Hst & _).
  destruct (bool_decide (0 < n')); simpl in *; rewrite Hst;
    by repeat split.
Qed.

(** X14.  A pass that prints no warning establishes the invariant of the
    Post collection: afterwards no stored post offers inline data to the
    migration any more, so no image array contains inline-encoded data and
    every entry that was inline has an [img_] identifier in its place. *)
Theorem migrateOldData_success_settles (E : Env) (w : World) :
  let w' := snd (migrateOldData E w) in
  warnings w' = warnings w →
  let posts' := DataService.getPosts (storage w') in
  Forall (λ p, needs_migration p = false) posts' ∧
  (∀ p entries v, p ∈ posts' → post_images p = Some (JArr entries) →
                  v ∈ entries → is_inline v = false).
Proof.
  intros w' Hquiet posts'.
  destruct (migrateOldData_run E w)
    as (r & n' & w1 & _ & _ & Hposts & _ & _ & Hw & _ & Hsettled).
  fold w' in Hposts, Hw. subst posts'. rewrite Hposts.
  assert (Hall : Forall (λ p, needs_migration p = false) r)
    by (apply Hsettled; congruence).
  split; [done|]. intros p entries v Hp Himages Hv.
  rewrite Forall_forall in Hall. specialize (Hall p Hp).
  unfold needs_migration in Hall. rewrite Himages in Hall.
  destruct (is_inline v) eqn:Hin; [|done].
  assert (existsb is_inline entries = true); [|congruence].
  apply existsb_exists. exists v. by rewrite <- list_elem_of_In.
Qed.

Lemma migrateOldData_success_settles_witness :
  Forall (λ p, needs_migration p = false)
    (DataService.getPosts
       (storage (snd (migrateOldData reliable
                        (fresh_page [gallery_post; legacy_post]))))).
Proof.
  apply (migrateOldData_success_settles reliable
           (fresh_page [gallery_post; legacy_post])).
  vm_compute. reflexivity.
Defined.

(* ================================================================== *)
(** * Object URLs *)

Lemma urls_kept_refl (w : World) : urls_kept w w.
Proof. by unfold urls_kept. Qed.

Lemma urls_kept_trans (w1 w2 w3 : World) :
  urls_kept w1 w2 → urls_kept w2 w3 → urls_kept w1 w3.
Proof.
  intros (? & ? & ?) (? & ? & ?). unfold urls_kept.
  repeat split; congruence.
Qed.

Lemma urls_kept_safe (E : Env) (w w' : World) :
  urls_kept w w' → urls_safe E w → urls_safe E w'.
Proof.
  intros (Hc & Hn & Hr) Hsafe. unfold urls_safe.
  by rewrite Hc, Hn, Hr.
Qed.

Section UrlsKept.

Context (E : Env).

Lemma saveImageBlob_urls (file : Blob) (w : World) :
  urls_kept w (snd (saveImageBlob E file w)).
Proof.
  unfold saveImageBlob, openDB. run.
  destruct (db_opens E (db_requests w)); simpl;
    [destruct (request_ok E (db_requests w)); simpl|]; by unfold urls_kept.
Qed.

Lemma convert_urls (dataUri : string) (w : World) :
  urls_kept w (snd (convert E dataUri w)).
Proof.
  unfold convert. destruct (fetch_blob E dataUri) as [blob|]; run.
  - pose proof (saveImageBlob_urls blob w) as Hk.
    by destruct (saveImageBlob E blob w) as [[]].
  - apply urls_kept_refl.
Qed.

Lemma migrateImage_urls (postId : string) (i : nat) (v : jsval) (n : nat)
    (w : World) :
  urls_kept w (snd (migrateImage E postId i v n w)).
Proof.
  destruct (is_inline v) eqn:Hv.
  - destruct v as [| | |s| |]; try done. simpl in Hv.
    pose proof (convert_urls s w) as Hk.
    destruct (convert E s w) as [[imageId|e] w1] eqn:Hc.
    + by rewrite (migrateImage_success E _ _ _ _ _ _ _ Hv Hc).
    + by rewrite (migrateImage_failure E _ _ _ _ _ _ _ Hv Hc).
  - rewrite migrateImage_other by done. apply urls_kept_refl.
Qed.

Lemma migrateImages_urls (postId : string) (entries : list jsval) :
  ∀ (i n : nat) (w : World),
  urls_kept w (snd (migrateImages E postId i entries n w)).
Proof.
  induction entries as [|v rest IH]; intros i n w; [apply urls_kept_refl|].
  destruct (migrateImage_run E postId i v n w) as (v' & n1 & w1 & Hv & _).
  destruct (migrateImages_run E postId rest (S i) n1 w1)
    as (rest' & n2 & w2 & Hrest & _).
  rewrite (migrateImages_cons E _ _ _ _ _ _ _ _ _ _ _ _ Hv Hrest).
  pose proof (migrateImage_urls postId i v n w) as H1.
  pose proof (IH (S i) n1 w1) as H2.
  rewrite Hv in H1. rewrite Hrest in H2. by eapply urls_kept_trans.
Qed.

Lemma migratePost_urls (p : Post) (n : nat) (w : World) :
  urls_kept w (snd (migratePost E p n w)).
Proof.
  destruct (images_array_dec p) as [[entries Hp]|Hno].
  - pose proof (migrateImages_urls (post_id p) entries 0 n w) as Hk.
    destruct (migrateImages_run E (post_id p) entries 0 n w)
      as (entries' & n1 & w1 & Hentries & _).
    rewrite (migratePost_array E _ _ _ _ _ _ _ Hp Hentries).
    by rewrite Hentries in Hk.
  - destruct (needs_migration p) eqn:Hneeds;
      [|rewrite migratePost_settled by done; apply urls_kept_refl].
    assert (∃ s, post_image p = Some (JStr s) ∧
                 startsWith s "data:image" = true) as (s & Himg & Hs).
    { unfold needs_migration in Hneeds.
      destruct (post_images p) as [[]|]; try (by destruct (Hno items));
        destruct (post_image p) as [[]|]; try done;
        apply andb_true_iff in Hneeds as [_ ?]; eauto. }
    pose proof (convert_urls s w) as Hk.
    destruct (convert E s w) as [[imageId|e] w1] eqn:Hc.
    + by rewrite (migratePost_legacy_success E _ _ _ _ _ _ Hno Himg Hs Hc).
    + by rewrite (migratePost_legacy_failure E _ _ _ _ _ _ Hno Himg Hs Hc).
Qed.

Lemma migratePosts_urls (posts : list Post) :
  ∀ (n : nat) (w : World), urls_kept w (snd (migratePosts E posts n w)).
Proof.
  induction posts as [|p rest IH]; intros n w; [apply urls_kept_refl|].
  destruct (migratePost_run E p n w) as (p' & n1 & w1 & Hp & _).
  destruct (migratePosts_run E rest n1 w1) as (rest' & n2 & w2 & Hrest & _).
  rewrite (migratePosts_cons E _ _ _ _ _ _ _ _ _ _ Hp Hrest).
  pose proof (migratePost_urls p n w) as H1.
  pose proof (IH n1 w1) as H2.
  rewrite Hp in H1. rewrite Hrest in H2. by eapply urls_kept_trans.
Qed.

Lemma migrateOldData_urls (w : World) :
  urls_kept w (snd (migrateOldData E w)).
Proof.
  pose proof (migratePosts_urls (DataService.getPosts (storage w)) 0 w) as Hk.
  destruct (migratePosts_run E (DataService.getPosts (storage w)) 0 w)
    as (posts' & n' & w1 & Hrun & _).
  rewrite (migrateOldData_unfold E w posts' n' w1 Hrun).
  rewrite Hrun in Hk. by destruct (bool_decide (0 < n')).
Qed.

Lemma getImageBlob_urls (imageId : string) (w : World) :
  urls_kept w (snd (getImageBlob E imageId w)).
Proof.
  unfold getImageBlob, openDB. run.
  destruct (db_opens E (db_requests w)); simpl;
    [destruct (request_ok E (db_requests w)); simpl;
     [destruct (images w !! imageId)|]|]; by unfold urls_kept.
Qed.

End UrlsKept.

Section UrlsSafe.

Context (E : Env).

(** The browser never hands out the same object URL twice. *)
Hypothesis tokens_distinct : ∀ i j, url_token E i = url_token E j → i = j.

Lemma object_url_inj (i j : nat) : object_url E i = object_url E j → i = j.
Proof. unfold object_url. intros [= Heq]. by apply tokens_distinct. Qed.

Lemma page_loaded_safe (w : World) : page_loaded w → urls_safe E w.
Proof.
  intros [Hc Hr]. unfold urls_safe. rewrite Hc, Hr.
  split; [|split; [|split; [|split; [|apply keys_distinct_empty]]]];
    intros *; rewrite ?JsMap_lookup_empty, ?elem_of_nil; done.
Qed.

Lemma getImageUrl_safe (imageId : string) (w : World) :
  urls_safe E w → urls_safe E (snd (getImageUrl E imageId w)).
Proof.
  intros Hsafe.
  destruct (imageUrlCache w !! imageId) as [url|] eqn:Hc.
  { by rewrite (getImageUrl_cached _ _ _ _ Hc). }
  destruct (startsWith imageId "data:image") eqn:Hs.
  { by rewrite (getImageUrl_inline _ _ _ Hc Hs). }
  pose proof (getImageBlob_urls E imageId w) as Hkept.
  destruct (getImageBlob E imageId w) as [[blob|e] w1] eqn:Hget.
  - rewrite (getImageUrl_fresh _ _ _ _ _ Hc Hs Hget). simpl.
    simpl in Hkept. destruct Hkept as (Hc1 & Hn1 & Hr1).
    destruct Hsafe as (Ha & Hb & Hcr & Hd & Hkeys).
    unfold urls_safe. simpl. rewrite Hc1, Hn1, Hr1.
    fold (object_url E (urls_created w)).
    split; [|split; [|split; [|split; [|by apply keys_distinct_insert]]]].
    + intros k url. destruct (decide (imageId = k)) as [<-|Hne].
      * rewrite JsMap_lookup_insert_eq. intros [= <-]. exists (urls_created w).
        split; [lia|done].
      * rewrite JsMap_lookup_insert_ne by done. intros Hk.
        destruct (Ha _ _ Hk) as (j & Hj & ->). exists j. split; [lia|done].
    + intros url Hurl. destruct (Hb _ Hurl) as (j & Hj & ->).
      exists j. split; [lia|done].
    + intros k url. destruct (decide (imageId = k)) as [<-|Hne].
      * rewrite JsMap_lookup_insert_eq. intros [= <-] Hin.
        destruct (Hb _ Hin) as (j & Hj & Heq).
        apply object_url_inj in Heq. lia.
      * rewrite JsMap_lookup_insert_ne by done. apply Hcr.
    + intros id1 id2 url.
      destruct (decide (imageId = id1)) as [<-|Hne1],
               (decide (imageId = id2)) as [<-|Hne2]; [done|..].
      * rewrite JsMap_lookup_insert_eq, JsMap_lookup_insert_ne by done.
        intros [= <-] Hk. destruct (Ha _ _ Hk) as (j & Hj & Heq).
        apply object_url_inj in Heq. lia.
      * rewrite JsMap_lookup_insert_eq, JsMap_lookup_insert_ne by done.
        intros Hk [= <-]. destruct (Ha _ _ Hk) as (j & Hj & Heq).
        apply object_url_inj in Heq. lia.
      * rewrite !JsMap_lookup_insert_ne by done. apply Hd.
  - rewrite (getImageUrl_unavailable _ _ _ _ _ Hc Hs Hget). simpl.
    eapply urls_kept_safe; [|done]. simpl in Hkept.
    destruct Hkept as (? & ? & ?). by unfold urls_kept.
Qed.

Lemma revokeImageUrl_safe (imageId : string) (w : World) :
  urls_safe E w → urls_safe E (snd (revokeImageUrl imageId w)).
Proof.
  intros Hsafe. unfold revokeImageUrl. run.
  destruct (imageUrlCache w !! imageId) as [url|] eqn:Hc; simpl; [|done].
  destruct Hsafe as (Ha & Hb & Hcr & Hd & Hkeys). unfold urls_safe. simpl.
  split; [|split; [|split; [|split; [|by apply keys_distinct_delete]]]].
  - intros k url' [_ Hk]%JsMap_lookup_delete_Some. by eapply Ha.
  - intros url' [->|Hin]%elem_of_cons; [by eapply Ha|by apply Hb].
  - intros k url' [Hne Hk]%JsMap_lookup_delete_Some [->|Hin]%elem_of_cons.
    + apply Hne. by eapply Hd.
    + by eapply Hcr.
  - intros id1 id2 url' [_ H1]%JsMap_lookup_delete_Some
      [_ H2]%JsMap_lookup_delete_Some.
    by eapply Hd.
Qed.

Lemma handleClearImages_safe (confirmed : bool) (w : World) :
  urls_safe E w → urls_safe E (snd (handleClearImages E confirmed w)).
Proof.
  intros Hsafe. unfold handleClearImages, deleteAllImages, openDB.
  destruct confirmed; simpl; [|done]. run.
  destruct (db_opens E (db_requests w)); simpl;
    [destruct (request_ok E (db_requests w)); simpl|]; try done.
  destruct Hsafe as (Ha & Hb & _ & _ & Hkeys). unfold urls_safe.
  rewrite !revoke_each. simpl.
  split; [|split; [|split; [|split; [|apply keys_distinct_empty]]]];
    try (intros *; by rewrite JsMap_lookup_empty).
  intros url. rewrite elem_of_app, elem_of_reverse.
  intros [Hin|Hin]; [|by apply Hb].
  apply list_elem_of_fmap in Hin as ([k url'] & -> & Hin).
  apply (JsMap_entry_lookup _ _ _ Hkeys) in Hin. by eapply Ha.
Qed.

Lemma perform_safe (w : World) (a : Action) :
  urls_safe E w → urls_safe E (perform E w a).
Proof.
  intros Hsafe. destruct a as [file|imageId|imageId|confirmed| |f]; simpl.
  - eapply urls_kept_safe; [apply saveImageBlob_urls|done].
  - by apply getImageUrl_safe.
  - by apply revokeImageUrl_safe.
  - by apply handleClearImages_safe.
  - eapply urls_kept_safe; [apply migrateOldData_urls|done].
  - done.
Qed.

Lemma actions_safe (actions : list Action) (w0 : World) :
  urls_safe E w0 → urls_safe E (foldl (perform E) w0 actions).
Proof.
  revert w0. induction actions as [|a actions IH]; intros w0 Hsafe; [done|].
  simpl. by apply IH, perform_safe.
Qed.

Lemma getImageUrl_result (imageId : string) (w : World) (r : string)
    (w' : World) :
  getImageUrl E imageId w = (Ok r, w') →
  r = "" ∨ (r = imageId ∧ startsWith imageId "data:image" = true) ∨
  imageUrlCache w' !! imageId = Some r.
Proof.
  intros Hrun.
  destruct (imageUrlCache w !! imageId) as [url|] eqn:Hc.
  { rewrite (getImageUrl_cached _ _ _ _ Hc) in Hrun.
    injection Hrun as <- <-. eauto. }
  destruct (startsWith imageId "data:image") eqn:Hs.
  { rewrite (getImageUrl_inline _ _ _ Hc Hs) in Hrun.
    injection Hrun as <- <-. eauto. }
  destruct (getImageBlob E imageId w) as [[blob|e] w1] eqn:Hget.
  - rewrite (getImageUrl_fresh _ _ _ _ _ Hc Hs Hget) in Hrun.
    injection Hrun as <- <-. right. right. simpl.
    by rewrite JsMap_lookup_insert_eq.
  - rewrite (getImageUrl_unavailable _ _ _ _ _ Hc Hs Hget) in Hrun.
    injection Hrun as <- <-. eauto.
Qed.

End UrlsSafe.


Lemma reliable_tokens_distinct (i j : nat) :
  url_token reliable i = url_token reliable j → i = j.
Proof. simpl. intros Heq%(inj (String.append _)). by apply (inj pretty). Qed.

Lemma result_not_revoked (E : Env) (imageId r : string) (w w' : World) :
  urls_safe E w' →
  getImageUrl E imageId w = (Ok r, w') →
  r ∉ revoked_urls w'.
Proof.
  intros (_ & Hb & Hc & _) Hrun Hin.
  destruct (getImageUrl_result E _ _ _ _ Hrun) as [->|[[-> Hs]|Hcached]].
  - by destruct (Hb _ Hin) as (k & _ & ?).
  - destruct (Hb _ Hin) as (k & _ & Heq). by rewrite Heq in Hs.
  - by eapply Hc.
Qed.

Lemma resolved_state_safe (E : Env) (w0 : World) (actions : list Action)
    (imageId r : string) (w' : World) :
  (∀ i j, url_token E i = url_token E j → i = j) →
  page_loaded w0 →
  getImageUrl E imageId (foldl (perform E) w0 actions) = (Ok r, w') →
  urls_safe E w'.
Proof.
  intros Hinj Hloaded Hrun.
  replace w' with (snd (getImageUrl E imageId (foldl (perform E) w0 actions)))
    by (by rewrite Hrun).
  by apply getImageUrl_safe, actions_safe, page_loaded_safe.
Qed.

(** X15.  No use after revoke.  Whatever happened on the page since the
    script was loaded (uploads, migrations, lookups, revocations, clearing,
    DataService calls), and as long as the browser never repeats an object
    URL, [getImageUrl] never returns a URL that has been revoked; afterwards
    no cached URL is a revoked one and no URL is cached under two
    identifiers. *)
Theorem getImageUrl_never_returns_revoked (E : Env) (w0 : World)
    (actions : list Action) (imageId r : string) (w' : World) :
  (∀ i j, url_token E i = url_token E j → i = j) →
  page_loaded w0 →
  getImageUrl E imageId (foldl (perform E) w0 actions) = (Ok r, w') →
  (r ∉ revoked_urls w') ∧
  (∀ k url, imageUrlCache w' !! k = Some url → url ∉ revoked_urls w') ∧
  (∀ id1 id2 url, imageUrlCache w' !! id1 = Some url →
                  imageUrlCache w' !! id2 = Some url → id1 = id2).
Proof.
  intros Hinj Hloaded Hrun.
  pose proof (resolved_state_safe E w0 actions imageId r w' Hinj Hloaded Hrun)
    as Hsafe.
  split; [by eapply result_not_revoked|].
  by destruct Hsafe as (_ & _ & Hc & Hd & _).
Qed.

Lemma getImageUrl_never_returns_revoked_witness :
  let history :=
    [ActSaveImage "ABC";
     ActGetImageUrl "img_1700000000000_r4nd0m0";
     ActRevokeImageUrl "img_1700000000000_r4nd0m0"] in
  let w := foldl (perform reliable) (fresh_page []) history in
  revoked_urls w = ["blob:site/0"] ∧
  fst (getImageUrl reliable "img_1700000000000_r4nd0m0" w)
    = Ok "blob:site/1" ∧
  ("blob:site/1" ∉
     revoked_urls (snd (getImageUrl reliable "img_1700000000000_r4nd0m0" w))).
Proof.
  split; [vm_compute; reflexivity|]. split; [vm_compute; reflexivity|].
  destruct (getImageUrl_never_returns_revoked reliable (fresh_page [])
              [ActSaveImage "ABC";
               ActGetImageUrl "img_1700000000000_r4nd0m0";
               ActRevokeImageUrl "img_1700000000000_r4nd0m0"]
              "img_1700000000000_r4nd0m0" "blob:site/1"
              (snd (getImageUrl reliable "img_1700000000000_r4nd0m0"
                      (foldl (perform reliable) (fresh_page [])
                         [ActSaveImage "ABC";
                          ActGetImageUrl "img_1700000000000_r4nd0m0";
                          ActRevokeImageUrl "img_1700000000000_r4nd0m0"]))))
    as (Hnot & _).
  - apply reliable_tokens_distinct.
  - split; reflexivity.
  - vm_compute. reflexivity.
  - exact Hnot.
Defined.



(** X17.  [revokeImageUrl] forgets one mapping and nothing else.  On an
    identifier that is not cached it changes nothing at all; on a cached one
    it revokes the URL and removes the mapping, the mappings of the other
    identifiers staying as they are.  Revoking twice is revoking once, and
    neither the image store nor localStorage is touched: the blob stays. *)
Theorem revokeImageUrl_forgets_one (imageId : string) (w : World) :
  let w' := snd (revokeImageUrl imageId w) in
  fst (revokeImageUrl imageId w) = Ok tt ∧
  imageUrlCache w' = delete imageId (imageUrlCache w) ∧
  imageUrlCache w' !! imageId = None ∧
  (∀ k, k ≠ imageId → imageUrlCache w' !! k = imageUrlCache w !! k) ∧
  (imageUrlCache w !! imageId = None → w' = w) ∧
  (∀ url, imageUrlCache w !! imageId = Some url →
          revoked_urls w' = url :: revoked_urls w) ∧
  revokeImageUrl imageId w' = (Ok tt, w') ∧
  images w' = images w ∧
  storage w' = storage w.
Proof.
  cbv zeta. unfold revokeImageUrl. run.
  destruct (imageUrlCache w !! imageId) as [url|] eqn:Hc; simpl.
  - rewrite JsMap_lookup_delete_eq. simpl.
    repeat split; try done.
    + intros k Hk. by rewrite JsMap_lookup_delete_ne.
    + by intros ? [= ->].
  - rewrite Hc. simpl. repeat split; try done.
    by rewrite JsMap_delete_id.
Qed.

(** X18.  [getImageUrl] only reads the stores: it never writes
    localStorage or the image store, whatever it returns.  A cached
    identifier is answered from the cache without an IndexedDB request and
    without any change, and inline data is passed through in the same way
    when it is not itself a cache key; otherwise exactly one request is
    made and the cache changes at most under the requested identifier. *)
Theorem getImageUrl_reads_only (E : Env) (imageId : string) (w : World) :
  let w' := snd (getImageUrl E imageId w) in
  storage w' = storage w ∧
  images w' = images w ∧
  (∀ k, k ≠ imageId → imageUrlCache w' !! k = imageUrlCache w !! k) ∧
  (∀ url, imageUrlCache w !! imageId = Some url →
          getImageUrl E imageId w = (Ok url, w)) ∧
  (imageUrlCache w !! imageId = None →
   startsWith imageId "data:image" = true →
     getImageUrl E imageId w = (Ok imageId, w)) ∧
  (imageUrlCache w !! imageId = None →
   startsWith imageId "data:image" = false →
     db_requests w' = S (db_requests w)).
Proof.
  cbv zeta.
  destruct (imageUrlCache w !! imageId) as [url|] eqn:Hc.
  { rewrite (getImageUrl_cached _ _ _ _ Hc). simpl.
    repeat split; try done. by intros ? [= ->]. }
  destruct (startsWith imageId "data:image") eqn:Hs.
  { rewrite (getImageUrl_inline _ _ _ Hc Hs). simpl. by repeat split. }
  unfold getImageUrl, getImageBlob, openDB. run. rewrite Hc, Hs. simpl.
  destruct (db_opens E (db_requests w)); simpl;
    [destruct (request_ok E (db_requests w)); simpl;
     [destruct (images w !! imageId); simpl|]|];
    repeat split; try done.
  intros k Hk. by rewrite JsMap_lookup_insert_ne.
Qed.

(* ================================================================== *)
(** * Logging in *)

Section UpsertAgain.

Context {A : Type} (key : A → string).

Lemma upsert_idem (rec : A) (arr : list A) :
  upsert key rec (upsert key rec arr) = upsert key rec arr.
Proof.
  pose proof (upsert_find_same key rec arr) as Hsame.
  unfold find in Hsame.
  destruct (list_find (λ x, key x = key rec) (upsert key rec arr))
    as [[i y]|] eqn:Hfind; [|done].
  simpl in Hsame. injection Hsame as ->.
  unfold upsert at 1. unfold findIndex. rewrite Hfind. simpl.
  apply list_find_Some in Hfind as (Hi & _). by apply list_insert_id.
Qed.

End UpsertAgain.

Lemma find_Some_first {A} (P : A → Prop) `{∀ x, Decision (P x)}
    (arr : list A) (x : A) :
  find P arr = Some x →
  ∃ i, arr !! i = Some x ∧ P x ∧ ∀ j y, arr !! j = Some y → j < i → ¬ P y.
Proof.
  unfold find. destruct (list_find P arr) as [[i y]|] eqn:Hf; [|done].
  intros [= <-]. exists i. by apply list_find_Some in Hf.
Qed.

Lemma find_None_all {A} (P : A → Prop) `{∀ x, Decision (P x)}
    (arr : list A) :
  find P arr = None → Forall (λ x, ¬ P x) arr.
Proof.
  unfold find. destruct (list_find P arr) as [[i y]|] eqn:Hf; [done|].
  intros _. by apply list_find_None in Hf.
Qed.

Lemma find_first {A} (P : A → Prop) `{∀ x, Decision (P x)}
    (arr : list A) (i : nat) (x : A) :
  arr !! i = Some x → P x → (∀ j y, arr !! j = Some y → j < i → ¬ P y) →
  find P arr = Some x.
Proof.
  intros Hi Hx Hfirst. unfold find.
  assert (list_find P arr = Some (i, x)) as ->; [|done].
  by apply list_find_Some.
Qed.

Lemma NoDup_insert_fresh {A} (l : list A) (i : nat) (x : A) :
  NoDup l → x ∉ l → NoDup (<[i:=x]> l).
Proof.
  intros Hnd Hx. destruct (decide (i < length l)) as [Hlt|Hge];
    [|by rewrite list_insert_ge by lia].
  rewrite insert_take_drop by done.
  rewrite <- (take_drop i l) in Hnd, Hx.
  rewrite <- (take_drop 1 (drop i l)), drop_drop in Hnd, Hx.
  rewrite Nat.add_1_r in Hnd, Hx.
  apply NoDup_app in Hnd as (Hnd1 & Hdisj & Hnd2).
  apply NoDup_app in Hnd2 as (_ & _ & Hnd3).
  rewrite !elem_of_app in Hx.
  apply NoDup_app. split; [done|]. split.
  - intros y Hy1 [->|Hy2]%elem_of_cons; [tauto|].
    apply (Hdisj y Hy1). apply elem_of_app. by right.
  - apply NoDup_cons. split; [tauto|done].
Qed.

Section UpsertNames.

Context {A : Type} (key name : A → string).

(** With distinct identifiers, the record replaced by an upsert is the one
    that carries the identifier. *)
Lemma upsert_at (rec x : A) (arr : list A) (i : nat) :
  NoDup (key <$> arr) → arr !! i = Some x → key rec = key x →
  upsert key rec arr = <[i:=rec]> arr.
Proof.
  intros Hnd Hi Hk. unfold upsert.
  destruct (findIndex (λ y, key y = key rec) arr) as [j|] eqn:Hfind.
  - apply findIndex_Some in Hfind as (y & Hj & Hky & _).
    assert (j = i) as ->; [|done].
    eapply (NoDup_lookup (key <$> arr)); [done| |].
    + by rewrite list_lookup_fmap, Hj.
    + rewrite list_lookup_fmap, Hi. simpl. congruence.
  - apply findIndex_None in Hfind. rewrite Forall_forall in Hfind.
    destruct (Hfind x); [by eapply list_elem_of_lookup_2|done].
Qed.

Lemma upsert_NoDup_names (rec : A) (arr : list A) :
  NoDup (name <$> arr) → name rec ∉ name <$> arr →
  NoDup (name <$> upsert key rec arr).
Proof.
  intros Hnd Hfresh. unfold upsert.
  destruct (findIndex (λ y, key y = key rec) arr) as [j|].
  - rewrite list_fmap_insert. by apply NoDup_insert_fresh.
  - rewrite fmap_app. apply NoDup_app. split; [done|].
    split; [|apply NoDup_singleton].
    intros y Hy ->%list_elem_of_singleton. done.
Qed.

(** A record with a new name is the first one found under that name. *)
Lemma upsert_find_name (rec : A) (arr : list A) :
  name rec ∉ name <$> arr →
  find (λ y, name y = name rec) (upsert key rec arr) = Some rec.
Proof.
  intros Hfresh.
  assert (Hnone : ∀ j y, arr !! j = Some y → name y ≠ name rec).
  { intros j y Hj Heq. apply Hfresh. rewrite <- Heq.
    apply list_elem_of_fmap_2. by eapply list_elem_of_lookup_2. }
  unfold upsert.
  destruct (findIndex (λ y, key y = key rec) arr) as [j|] eqn:Hfind.
  - apply findIndex_Some in Hfind as (y & Hj & _).
    apply (find_first _ _ j); [|done|].
    + apply list_lookup_insert_eq. by eapply lookup_lt_Some.
    + intros j' y' Hj' Hlt. rewrite list_lookup_insert_ne in Hj' by lia.
      by eapply Hnone.
  - apply (find_first _ _ (length arr)); [|done|].
    + by rewrite lookup_app_r, Nat.sub_diag by lia.
    + intros j' y' Hj' Hlt. rewrite lookup_app_l in Hj' by done.
      by eapply Hnone.
Qed.

End UpsertNames.

Lemma getUsers_stored (users : list User) posts comments likes session :
  DataService.getUsers (mkLocalStorage (Some users) posts comments likes session)
  = users.
Proof. reflexivity. Qed.

Section Login.

Context (trim : string → string).

Lemma truthy_nonempty (s : string) : s ≠ "" → truthy_string s = true.
Proof. intros Hs. unfold truthy_string. by rewrite decide_False. Qed.

(** What [handleLogin] leaves, in one expression: the user it settles on is
    upserted and becomes the session pointer and [currentUser]. *)
Lemma handleLogin_unfold (c : Clock) (usernameInput bioInput : string)
    (s : Session) :
  trim usernameInput ≠ "" →
  let users := DataService.getUsers (local s) in
  let user :=
    match find (λ u, user_username u = trim usernameInput) users with
    | None =>
        mkUser ("user_" +:+ now_ms c) (trim usernameInput) (trim bioInput)
          (now_iso c)
    | Some found =>
        if decide (trim bioInput = "") then found
        else set_user_bio (trim bioInput) found
    end in
  handleLogin trim c usernameInput bioInput s =
    mkSession
      (mkLocalStorage (Some (upsert user_id user users))
         (architecture_log_posts (local s))
         (architecture_log_comments (local s))
         (architecture_log_likes (local s)) (Some user))
      (Some user).
Proof.
  intros Hname. cbv zeta. unfold handleLogin.
  rewrite (truthy_nonempty _ Hname). simpl.
  destruct (find _ (DataService.getUsers (local s))) as [found|] eqn:Hfind;
    unfold truthy_string; destruct (decide (trim bioInput = "")) as [Hb|Hb];
    simpl; unfold DataService.setCurrentUser, DataService.saveUser,
      DataService.getUsers, set_users, set_current_user; simpl;
    rewrite ?upsert_idem, ?Hb; reflexivity.
Qed.

End Login.

(** X19.  [handleLogin] with a blank user name does nothing.  Otherwise it
    settles on one user record, which is fixed by the stored users: when a
    stored user has that name, it is the first such user, as it is stored
    when no bio was typed and with the bio replaced by the typed one
    otherwise; when no stored user has that name, it is a new user with
    the generated identifier, that name, the typed bio and the time of the
    call.  That record becomes [currentUser] and the session pointer, the
    user collection is the old one with that record upserted by identifier,
    and the record is the one stored under its identifier: session and
    persisted copy agree.  Posts, comments and likes are not touched. *)
Theorem handleLogin_session_agrees (trim : string → string) (c : Clock)
    (usernameInput bioInput : string) (s : Session) :
  let s' := handleLogin trim c usernameInput bioInput s in
  let users := DataService.getUsers (local s) in
  (trim usernameInput = "" → s' = s) ∧
  (trim usernameInput ≠ "" →
     ∃ user,
       currentUser s' = Some user ∧
       DataService.getCurrentUser (local s') = Some user ∧
       user_username user = trim usernameInput ∧
       user ∈ DataService.getUsers (local s') ∧
       find (λ u, user_id u = user_id user)
         (DataService.getUsers (local s')) = Some user ∧
       (trim bioInput ≠ "" → user_bio user = trim bioInput) ∧
       (trim bioInput = "" →
        ∀ found,
          find (λ u, user_username u = trim usernameInput) users =
            Some found →
          user = found) ∧
       (∀ found,
          find (λ u, user_username u = trim usernameInput) users =
            Some found →
          (∃ i, users !! i = Some found ∧
                ∀ j y, users !! j = Some y → j < i →
                       user_username y ≠ trim usernameInput) ∧
          user = (if decide (trim bioInput = "") then found
                  else set_user_bio (trim bioInput) found) ∧
          user_id user = user_id found ∧
          user_createdAt user = user_createdAt found) ∧
       (find (λ u, user_username u = trim usernameInput) users = None →
          Forall (λ u, user_username u ≠ trim usernameInput) users ∧
          user = mkUser ("user_" +:+ now_ms c) (trim usernameInput)
                   (trim bioInput) (now_iso c)) ∧
       DataService.getUsers (local s') = upsert user_id user users ∧
       DataService.getPosts (local s') = DataService.getPosts (local s) ∧
       DataService.getComments None (local s') =
         DataService.getComments None (local s) ∧
       DataService.getLikes None (local s') =
         DataService.getLikes None (local s)).
Proof.
  cbv zeta. split.
  { intros Hblank. unfold handleLogin, truthy_string.
    by rewrite Hblank. }
  intros Hname. rewrite (handleLogin_unfold trim c _ _ s Hname). cbv zeta.
  eexists. split; [reflexivity|]. split; [reflexivity|].
  cbn [local]. rewrite getUsers_stored.
  split; [|split; [apply upsert_elem|split; [apply upsert_find_same|]]].
  - destruct (find _ (DataService.getUsers (local s))) as [found|] eqn:Hfind;
      [|done].
    apply find_Some_first in Hfind as (i & _ & Hn & _).
    by destruct (decide (trim bioInput = "")).
  - split; [|split; [|split; [|split; [|split; [done|done]]]]].
    + intros Hbio. destruct (find _ (DataService.getUsers (local s))); [|done].
      by rewrite decide_False.
    + intros Hbio found Hfound. rewrite Hfound. by rewrite decide_True.
    + intros found Hfound. rewrite Hfound.
      split; [|split; [done|by destruct (decide (trim bioInput = ""))]].
      apply find_Some_first in Hfound as (i & Hi & _ & Hfirst). eauto.
    + intros Hnone. rewrite Hnone. split; [|done].
      by apply find_None_all in Hnone.
Qed.

(** X20.  [handleLogin] keeps the user collection well formed: when the
    identifiers and the user names are pairwise distinct before, they are so
    afterwards.  Logging in under a registered name adds no record and
    changes neither the identifiers nor the names; logging in under a new
    name, at a time whose generated identifier is not taken, adds exactly
    the new user at the end. *)
Theorem handleLogin_keeps_users_unique (trim : string → string) (c : Clock)
    (usernameInput bioInput : string) (s : Session) :
  NoDup (user_id <$> DataService.getUsers (local s)) →
  NoDup (user_username <$> DataService.getUsers (local s)) →
  let users := DataService.getUsers (local s) in
  let users' :=
    DataService.getUsers (local (handleLogin trim c usernameInput bioInput s))
  in
  NoDup (user_id <$> users') ∧
  NoDup (user_username <$> users') ∧
  (trim usernameInput ∈ user_username <$> users →
     user_id <$> users' = user_id <$> users ∧
     user_username <$> users' = user_username <$> users) ∧
  (trim usernameInput ≠ "" →
   trim usernameInput ∉ user_username <$> users →
   "user_" +:+ now_ms c ∉ user_id <$> users →
     users' = users ++ [mkUser ("user_" +:+ now_ms c) (trim usernameInput)
                          (trim bioInput) (now_iso c)]).
Proof.
  intros Hids Hnames. cbv zeta.
  destruct (decide (trim usernameInput = "")) as [Hblank|Hname].
  { assert (handleLogin trim c usernameInput bioInput s = s) as ->.
    { unfold handleLogin, truthy_string. by rewrite Hblank. }
    split; [done|]. split; [done|]. split; [done|]. by intros []. }
  rewrite (handleLogin_unfold trim c _ _ s Hname). cbv zeta.
  cbn [local]. rewrite getUsers_stored.
  destruct (find _ (DataService.getUsers (local s))) as [found|] eqn:Hfind.
  - pose proof Hfind as (i & Hi & Hn & _)%find_Some_first.
    set (user := if decide (trim bioInput = "") then found
                 else set_user_bio (trim bioInput) found).
    assert (Hid : user_id user = user_id found)
      by (subst user; by destruct (decide _)).
    assert (Hun : user_username user = user_username found)
      by (subst user; by destruct (decide _)).
    rewrite (upsert_at user_id user found _ i Hids Hi Hid).
    assert (Hsame_ids : user_id <$> <[i:=user]> (DataService.getUsers (local s))
                        = user_id <$> DataService.getUsers (local s)).
    { rewrite list_fmap_insert, Hid, list_insert_id; [done|].
      by rewrite list_lookup_fmap, Hi. }
    assert (Hsame_names :
              user_username <$> <[i:=user]> (DataService.getUsers (local s))
              = user_username <$> DataService.getUsers (local s)).
    { rewrite list_fmap_insert, Hun, list_insert_id; [done|].
      by rewrite list_lookup_fmap, Hi. }
    rewrite Hsame_ids, Hsame_names.
    split; [done|]. split; [done|]. split; [done|].
    intros _ Hnot. destruct Hnot. rewrite <- Hn.
    apply list_elem_of_fmap_2. by eapply list_elem_of_lookup_2.
  - apply find_None_all in Hfind.
    assert (Hfresh : trim usernameInput ∉
                     user_username <$> DataService.getUsers (local s)).
    { intros (y & Hy & Hin)%list_elem_of_fmap.
      rewrite Forall_forall in Hfind. by apply (Hfind y). }
    split; [by apply upsert_NoDup|].
    split; [by apply upsert_NoDup_names|].
    split; [done|]. intros _ _ Hnew. by apply upsert_fresh.
Qed.

Lemma handleLogin_keeps_users_unique_witness :
  let s := mkSession (set_users [alice; bob] empty_storage) None in
  DataService.getUsers
    (local (handleLogin (λ x, x) later "alice" "Brick and light" s))
  = [set_user_bio "Brick and light" alice; bob] ∧
  NoDup (user_username <$>
           DataService.getUsers
             (local (handleLogin (λ x, x) later "carol" "" s))).
Proof.
  set (s := mkSession (set_users [alice; bob] empty_storage) None).
  assert (Hids : NoDup (user_id <$> DataService.getUsers (local s)))
    by (apply (bool_decide_unpack _); vm_compute; exact I).
  assert (Hnames : NoDup (user_username <$> DataService.getUsers (local s)))
    by (apply (bool_decide_unpack _); vm_compute; exact I).
  split; [reflexivity|].
  by destruct (handleLogin_keeps_users_unique (λ x, x) later "carol" "" s
                 Hids Hnames) as (_ & Hn & _).
Defined.

(** X21.  Logging in again changes nothing: with pairwise distinct user
    identifiers, a second [handleLogin] with the same form values, at
    whatever later time, leaves localStorage and [currentUser] exactly as
    the first one left them. *)
Theorem handleLogin_again (trim : string → string) (c c' : Clock)
    (usernameInput bioInput : string) (s : Session) :
  NoDup (user_id <$> DataService.getUsers (local s)) →
  handleLogin trim c' usernameInput bioInput
    (handleLogin trim c usernameInput bioInput s) =
  handleLogin trim c usernameInput bioInput s.
Proof.
  intros Hids.
  destruct (decide (trim usernameInput = "")) as [Hblank|Hname].
  { assert (∀ c0 s0, handleLogin trim c0 usernameInput bioInput s0 = s0)
      as Hnoop.
    { intros c0 s0. unfold handleLogin, truthy_string. by rewrite Hblank. }
    by rewrite !Hnoop. }
  rewrite (handleLogin_unfold trim c _ _ s Hname). cbv zeta.
  rewrite (handleLogin_unfold trim c' _ _ _ Hname). cbv zeta.
  cbn [local architecture_log_posts architecture_log_comments
       architecture_log_likes].
  rewrite getUsers_stored.
  set (users := DataService.getUsers (local s)).
  set (user := match find _ users with
               | Some found => _ | None => _ end).
  assert (Hfound : find (λ u, user_username u = trim usernameInput)
                     (upsert user_id user users) = Some user).
  { subst user.
    destruct (find _ users) as [found|] eqn:Hfind.
    - pose proof Hfind as (i & Hi & Hn & Hfirst)%find_Some_first.
      set (user := if decide (trim bioInput = "") then found
                   else set_user_bio (trim bioInput) found).
      assert (Hid : user_id user = user_id found)
        by (subst user; by destruct (decide _)).
      assert (Hun : user_username user = trim usernameInput)
        by (subst user; by destruct (decide _)).
      rewrite (upsert_at user_id user found users i Hids Hi Hid).
      apply (find_first _ _ i); [|done|].
      + apply list_lookup_insert_eq. by eapply lookup_lt_Some.
      + intros j y Hj Hlt. rewrite list_lookup_insert_ne in Hj by lia.
        by eapply Hfirst.
    - apply find_None_all in Hfind.
      apply (upsert_find_name user_id user_username
               (mkUser ("user_" +:+ now_ms c) (trim usernameInput)
                  (trim bioInput) (now_iso c)) users).
      simpl. intros (y & Hy & Hin)%list_elem_of_fmap.
      rewrite Forall_forall in Hfind. by apply (Hfind y). }
  rewrite Hfound.
  assert (Hbio : (if decide (trim bioInput = "") then user
                  else set_user_bio (trim bioInput) user) = user).
  { destruct (decide (trim bioInput = "")) as [Hb|Hb]; [done|].
    subst user. by destruct (find _ users) as [found|]. }
  rewrite Hbio. by rewrite upsert_idem.
Qed.

Lemma handleLogin_again_witness :
  let s := mkSession (set_users [alice; bob] empty_storage) None in
  handleLogin (λ x, x) later "carol" "Concrete"
    (handleLogin (λ x, x) noon "carol" "Concrete" s) =
  handleLogin (λ x, x) noon "carol" "Concrete" s.
Proof.
  apply (handleLogin_again (λ x, x) noon later "carol" "Concrete"
           (mkSession (set_users [alice; bob] empty_storage) None)).
  apply (bool_decide_unpack _). vm_compute. exact I.
Defined.

(* ================================================================== *)
(** * Uploading and starting the page *)

Section Upload.

Context (E : Env).

Lemma saveImageBlob_step (file : Blob) (w : World) :
  ∃ r w', saveImageBlob E file w = (r, w') ∧
    grows w w' ∧ db_requests w' = S (db_requests w) ∧
    match saved_id E (db_requests w) with
    | Some imageId => r = Ok imageId ∧ images w' !! imageId = Some file
    | None => (∃ e, r = Throw e) ∧ images w' = images w
    end.
Proof.
  unfold saved_id.
  destruct (saveImageBlob_run E file w)
    as [(w' & Hrun & Hg & _ & Hn & Hi)|(e & w' & Hrun & Hg & _ & Hi)].
  - exists (Ok ("img_" +:+ id_stamp E (db_requests w))), w'.
    do 3 (split; [done|]).
    revert Hrun. unfold saveImageBlob, openDB. run.
    destruct (db_opens E (db_requests w)); simpl;
      [destruct (request_ok E (db_requests w)); simpl|]; try done;
      try (intros _; split; [done|]; by rewrite Hi, lookup_insert_eq).
  - exists (Throw e), w'. split; [done|]. split; [done|].
    revert Hrun. unfold saveImageBlob, openDB. run.
    destruct (db_opens E (db_requests w)); simpl;
      [destruct (request_ok E (db_requests w)); simpl|]; try done;
      intros [= _ <-]; simpl; eauto.
Qed.

Lemma saveSelectedFiles_run (files : list Blob) :
  ∀ w : World,
  ∃ imageIds warns w',
    saveSelectedFiles E files w = (Ok (imageIds, warns), w') ∧
    grows w w' ∧
    db_requests w' = db_requests w + length files ∧
    imageIds = omap (saved_id E) (seq (db_requests w) (length files)) ∧
    length imageIds + length warns = length files ∧
    Forall (λ imageId, is_Some (images w' !! imageId)) imageIds.
Proof.
  induction files as [|file rest IH]; intros w.
  - exists [], [], w. repeat split; try done; simpl; lia.
  - destruct (saveImageBlob_step file w) as (r & w1 & Hrun & Hg1 & Hn1 & Hr).
    destruct (IH w1)
      as (ids & warns & w2 & Hrest & Hg2 & Hn2 & Hids & Hlen & Hin).
    simpl. run. rewrite Hrun.
    destruct (saved_id E (db_requests w)) as [imageId|] eqn:Hsaved.
    + destruct Hr as [-> Hblob]. simpl. rewrite Hrest. simpl.
      eexists _, _, _. split; [done|].
      split; [by eapply grows_trans|]. split; [lia|].
      split; [by rewrite Hids, Hn1|]. split; [simpl; lia|].
      constructor; [|done].
      destruct Hg2 as (_ & _ & Hkeep & _). apply Hkeep. by rewrite Hblob.
    + destruct Hr as [[e ->] Hsame]. simpl. rewrite Hrest. simpl.
      eexists _, _, _. split; [done|].
      split; [by eapply grows_trans|]. split; [lia|].
      split; [by rewrite Hids, Hn1|]. split; [simpl; lia|done].
Qed.

End Upload.

Lemma saved_ids_generated (E : Env) (ks : list nat) :
  existsb is_inline (JStr <$> omap (saved_id E) ks) = false.
Proof.
  induction ks as [|k ks IH]; [done|].
  simpl. unfold saved_id at 1.
  by destruct (db_opens E k && request_ok E k).
Qed.

(** X22.  An upload that is refused changes nothing.  Without a logged-in
    user, or with a blank building name or an empty date, [handleUploadForm]
    only shows its alert: no file is sent to IndexedDB, no post is written
    and the selected files stay selected. *)
Theorem handleUploadForm_refused (E : Env) (trim : string → string)
    (split_commas : string → list string) (c : Clock) (rand : string)
    (form : UploadForm) (files : list Blob) (w : World) :
  handleUploadForm E trim split_commas c rand None form files w =
    (Ok (mkUploadResult "Please log in first" files []), w) ∧
  (∀ u, trim (buildingNameInput form) = "" ∨ dateInput form = "" →
     handleUploadForm E trim split_commas c rand (Some u) form files w =
       (Ok (mkUploadResult "Please fill in required fields" files []), w)).
Proof.
  split; [done|]. intros u Hblank. unfold handleUploadForm. run.
  assert (negb (truthy_string (trim (buildingNameInput form)))
          || negb (truthy_string (dateInput form)) = true) as ->; [|done].
  unfold truthy_string.
  destruct Hblank as [-> | ->]; simpl; [done|]. apply orb_true_r.
Qed.

(** X23.  An upload that is accepted always creates the post, whatever
    happens to the images.  The files are sent to IndexedDB one request
    each, in order; the post's image array holds the generated identifiers
    of exactly the files whose request succeeded, in that order, so a file
    that cannot be saved is left out (with one warning) and the others are
    kept.  The post is upserted under its generated identifier with the
    logged-in user as owner, can be looked up at once, and never needs
    migration.  The selection is emptied; users, comments, likes, the
    session pointer and the URL cache are not touched. *)
Theorem handleUploadForm_creates_post (E : Env) (trim : string → string)
    (split_commas : string → list string) (c : Clock) (rand : string)
    (u : User) (form : UploadForm) (files : list Blob) (w : World) :
  trim (buildingNameInput form) ≠ "" →
  dateInput form ≠ "" →
  let imageIds := omap (saved_id E) (seq (db_requests w) (length files)) in
  ∃ res w' post,
    handleUploadForm E trim split_commas c rand (Some u) form files w
      = (Ok res, w') ∧
    alert_shown res = "Post created successfully!" ∧
    files_after res = [] ∧
    length imageIds + length (warned res) = length files ∧
    post_id post = "post_" +:+ now_ms c +:+ "_" +:+ rand ∧
    post_userId post = user_id u ∧
    post_username post = user_username u ∧
    post_buildingName post = trim (buildingNameInput form) ∧
    post_date post = dateInput form ∧
    post_images post = Some (JArr (JStr <$> imageIds)) ∧
    post_image post = None ∧
    needs_migration post = false ∧
    DataService.getPosts (storage w') =
      upsert post_id post (DataService.getPosts (storage w)) ∧
    findPost (post_id post) (storage w') = Some post ∧
    Forall (λ imageId, is_Some (images w' !! imageId)) imageIds ∧
    db_requests w' = db_requests w + length files ∧
    DataService.getUsers (storage w') = DataService.getUsers (storage w) ∧
    DataService.getComments None (storage w') =
      DataService.getComments None (storage w) ∧
    DataService.getLikes None (storage w') =
      DataService.getLikes None (storage w) ∧
    DataService.getCurrentUser (storage w') =
      DataService.getCurrentUser (storage w) ∧
    imageUrlCache w' = imageUrlCache w.
Proof.
  intros Hname Hdate. cbv zeta.
  destruct (saveSelectedFiles_run E files w)
    as (ids & warns & w1 & Hrun & Hg & Hn & Hids & Hlen & Hin).
  destruct Hg as (Hst & Hc & _).
  unfold handleUploadForm. run.
  rewrite (truthy_nonempty _ Hname), (truthy_nonempty _ Hdate). simpl.
  rewrite Hrun. simpl. rewrite <- Hids.
  match goal with |- context [DataService.savePost ?p] =>
    eexists _, _, p end.
  split; [reflexivity|]. simpl.
  do 10 (split; [done|]).
  split; [unfold needs_migration; simpl; by rewrite Hids, saved_ids_generated|].
  rewrite Hst.
  split; [done|]. split; [|by repeat split].
  match goal with |- findPost _ (DataService.savePost ?p _) = _ =>
    apply (upsert_find_same post_id p) end.
Qed.

Lemma handleUploadForm_creates_post_witness :
  let form :=
    mkUploadForm "Villa Savoye" "Residential" "Poissy" "2023-11-14" ""
      "light, concrete" "#F5E6D3" in
  ∃ res w' post,
    handleUploadForm flaky (λ x, x) (λ x, [x]) noon "k3x9q2m1z" (Some alice)
      form ["ABC"; "DEF"; "GHI"] (fresh_page []) = (Ok res, w') ∧
    warned res = ["Failed to save image:"] ∧
    post_images post =
      Some (JArr [JStr "img_1700000000000_r4nd0m0";
                  JStr "img_1700000000000_r4nd0m2"]) ∧
    DataService.getPosts (storage w') = [post].
Proof.
  destruct (handleUploadForm_creates_post flaky (λ x, x) (λ x, [x]) noon
              "k3x9q2m1z" alice
              (mkUploadForm "Villa Savoye" "Residential" "Poissy"
                 "2023-11-14" "" "light, concrete" "#F5E6D3")
              ["ABC"; "DEF"; "GHI"] (fresh_page []))
    as (res & w' & post & Hrun & _ & _ & _ & _ & _ & _ & _ & _ & Himages & _
        & _ & Hposts & _); [discriminate..|].
  exists res, w', post. split; [exact Hrun|].
  split; [by injection Hrun as <- _|].
  split; [exact Himages|].
  rewrite Hposts. unfold upsert. vm_compute findIndex. reflexivity.
Defined.

Lemma init_unfold (E : Env) (w : World) :
  init E w =
  (Ok (DataService.getCurrentUser (storage w),
       match DataService.getCurrentUser (storage w) with
       | Some _ => AppScreen
       | None => LoginModal
       end),
   snd (migrateOldData E w)).
Proof.
  destruct (migratePosts_run E (DataService.getPosts (storage w)) 0 w)
    as (posts' & n' & w1 & Hrun & (Hst & _) & _).
  unfold init. run.
  rewrite (migrateOldData_unfold E w posts' n' w1 Hrun). simpl.
  destruct (bool_decide (0 < n')); simpl; by rewrite Hst.
Qed.

(** X24.  A login survives a reload.  When localStorage is what a
    [handleLogin] with a non-blank name left, the start of the page, after
    its migration pass and whatever that pass meets, sets [currentUser] to
    the very user the login settled on and shows the application.  With no
    session pointer the login dialog is shown, also on a store that
    [DataService.init] has just filled with its default user. *)
Theorem login_survives_reload (trim : string → string) (c : Clock)
    (usernameInput bioInput : string) (s : Session) (E : Env) (w : World) :
  trim usernameInput ≠ "" →
  storage w = local (handleLogin trim c usernameInput bioInput s) →
  fst (init E w) =
    Ok (currentUser (handleLogin trim c usernameInput bioInput s), AppScreen) ∧
  is_Some (currentUser (handleLogin trim c usernameInput bioInput s)) ∧
  (∀ w0, DataService.getCurrentUser (storage w0) = None →
         fst (init E w0) = Ok (None, LoginModal)) ∧
  (∀ c0 w0, storage w0 = DataService.init c0 empty_storage →
            fst (init E w0) = Ok (None, LoginModal)).
Proof.
  intros Hname Hst. rewrite init_unfold, Hst.
  rewrite (handleLogin_unfold trim c _ _ s Hname). cbv zeta. simpl.
  split; [done|]. split; [eauto|]. split.
  - intros w0 Hnone. by rewrite init_unfold, Hnone.
  - intros c0 w0 Hinit. by rewrite init_unfold, Hinit.
Qed.

Lemma login_survives_reload_witness :
  let s := mkSession (DataService.init noon empty_storage) None in
  let s' := handleLogin (λ x, x) later "carol" "" s in
  fst (init flaky (mkWorld (local s') ∅ ∅ 0 0 [] [])) =
    Ok (Some (mkUser "user_1700000060000" "carol" "" (now_iso later)),
        AppScreen).
Proof.
  set (s := mkSession (DataService.init noon empty_storage) None).
  destruct (login_survives_reload (λ x, x) later "carol" "" s flaky
              (mkWorld (local (handleLogin (λ x, x) later "carol" "" s))
                 ∅ ∅ 0 0 [] []))
    as (Hinit & _); [discriminate|reflexivity|].
  exact Hinit.
Defined.
